(** * El Impostor: the round session engine of [src/App.tsx]

    A shallow embedding of the React component's state and event handlers,
    and the properties of roster, assignment, turn traversal and gestures.

    Conventions.
    - A handler reads the state captured by its closure and queues setter
      calls; React applies them after the handler returns.  A handler is
      therefore a function from the state it closed over to the next state,
      and every read inside it is a read of the OLD state.
    - [Math.random], [navigator.vibrate] and [confetti] are the handlers'
      only contact with the outside; they live in a [World] that the [IO]
      monad threads through.
    - JavaScript [undefined] in a typed slot is [None].
    - An event reaches a handler only through a control that is mounted.
      [rendered], [dispatch] and [session] describe the settled screen,
      on which the mounted panel is the render of the current state;
      [Screen], [deliver] and [live_session] add the Setup and Playing
      panels' exit animations, during which the panel that is leaving
      still takes events with the closures of its last render. *)

From Stdlib Require Import ZArith NArith Lia ZifyBool QArith.
From stdpp Require Import base list strings.

Local Open Scope Z_scope.

(* ===================================================================== *)
(** ** Numbers: doubles in [0,1) and [Math.floor (Math.random () * n)]     *)
(* ===================================================================== *)

Module Double.

(** Binary64 keeps 53 significant bits. *)
Definition prec : Z := 53.
Definition scale : Z := 2 ^ prec.

(** A value returned by [Math.random()]: [mant / 2^53] with
    [0 <= mant < 2^53], the grid on which the engines draw (V8 fills 52
    of the bits, SpiderMonkey and JavaScriptCore 53). *)
Record unit_double : Type := mk_unit {
  mant : Z;
  mant_range : (0 <=? mant) && (mant <? scale) = true
}.

(** Round a non-negative integer to 53 significant bits, to nearest,
    ties to the even significand (IEEE 754 roundTiesToEven). *)
Definition round_nearest_even (p : Z) : Z :=
  let s := Z.log2 p - (prec - 1) in
  if s <=? 0 then p
  else
    let q := p / 2 ^ s in
    let r := p mod 2 ^ s in
    let half := 2 ^ (s - 1) in
    let q' := if r <? half then q
              else if half <? r then q + 1
              else if Z.even q then q else q + 1 in
    q' * 2 ^ s.

(** [u * n] in binary64 for an integer [n], as a multiple of [2^-53]:
    the exact product [mant * n] rounded to 53 bits; the sign is that of
    [n], rounding is symmetric. *)
Definition mul (u : unit_double) (n : Z) : Z :=
  Z.sgn n * round_nearest_even (mant u * Z.abs n).

(** [Math.floor] of a multiple of [2^-53]. *)
Definition floor (x : Z) : Z := x / scale.

(** [Math.floor(u * n)] *)
Definition floor_mul (u : unit_double) (n : Z) : Z := floor (mul u n).

(** [u - 0.5], exact in binary64 for every grid value, as a multiple of
    [2^-53]. *)
Definition sub_half (u : unit_double) : Z := mant u - 2 ^ (prec - 1).

End Double.

Import Double.

(* ===================================================================== *)
(** ** The world outside the component                                     *)
(* ===================================================================== *)

(** Fire-and-forget calls, in the order they are issued. *)
Inductive Effect : Type :=
  | Vibrate (ms : Z)      (* navigator.vibrate(ms) *)
  | Confetti.             (* confetti({ particleCount: 150, ... }) *)

Global Instance Effect_eq_dec : EqDecision Effect.
Proof. solve_decision. Defined.

(** The values [Math.random()] is going to return, in call order. *)
Definition RandomSource : Type := nat -> unit_double.

Record World : Type := mk_world {
  random_source : RandomSource;
  can_vibrate : bool;             (* navigator.vibrate is defined *)
  effects : list Effect
}.

Definition IO (A : Type) : Type := World -> A * World.

Global Instance IO_ret : MRet IO := λ A (a : A) w, (a, w).
Global Instance IO_bind : MBind IO :=
  λ A B (f : A -> IO B) (m : IO A) w, let '(a, w') := m w in f a w'.

Definition emit (e : Effect) : IO unit :=
  λ w, (tt, mk_world (random_source w) (can_vibrate w) (effects w ++ [e])).

Definition Math_random : IO unit_double :=
  λ w, (random_source w 0%nat,
        mk_world (λ i, random_source w (S i)) (can_vibrate w) (effects w)).

(** [if (navigator.vibrate) navigator.vibrate(ms)] *)
Definition vibrate (ms : Z) : IO unit :=
  λ w, if can_vibrate w then emit (Vibrate ms) w else (tt, w).

Definition confetti : IO unit := emit Confetti.

Definition count_confetti (l : list Effect) : nat :=
  length (filter (λ e, e = Confetti) l).

(* ===================================================================== *)
(** ** Data model                                                          *)
(* ===================================================================== *)

Inductive GameState : Type := setup | playing | reveal | finished.
Inductive GameMode : Type := classic | uncertainty.

Global Instance GameState_eq_dec : EqDecision GameState.
Proof. solve_decision. Defined.
Global Instance GameMode_eq_dec : EqDecision GameMode.
Proof. solve_decision. Defined.

Record Player : Type := mk_player { id : string; name : string }.

Global Instance Player_eq_dec : EqDecision Player.
Proof. solve_decision. Defined.

(** The [useState] cells of [App]. *)
Record AppState : Type := mk_state {
  gameState : GameState;
  gameMode : GameMode;
  players : list Player;
  newPlayerName : string;
  impostorIndices : list (option Z);
  currentWord : option string;
  currentPlayerIndex : Z;
  isRevealed : bool;
  editingPlayerId : option string;
  round : Z;
  isPressed : bool;
  showRules : bool
}.

Definition default_players : list Player :=
  [ mk_player "1" "Jugador 1"; mk_player "2" "Jugador 2"; mk_player "3" "Jugador 3" ].

Definition initial_state : AppState := {|
  gameState := setup;
  gameMode := classic;
  players := default_players;
  newPlayerName := "";
  impostorIndices := [];
  currentWord := Some "";
  currentPlayerIndex := 0;
  isRevealed := false;
  editingPlayerId := None;
  round := 1;
  isPressed := false;
  showRules := false
|}.

(** The setters returned by [useState]. *)
Definition setGameState (v : GameState) (s : AppState) : AppState :=
  mk_state v (gameMode s) (players s) (newPlayerName s) (impostorIndices s)
    (currentWord s) (currentPlayerIndex s) (isRevealed s) (editingPlayerId s)
    (round s) (isPressed s) (showRules s).
Definition setGameMode (v : GameMode) (s : AppState) : AppState :=
  mk_state (gameState s) v (players s) (newPlayerName s) (impostorIndices s)
    (currentWord s) (currentPlayerIndex s) (isRevealed s) (editingPlayerId s)
    (round s) (isPressed s) (showRules s).
Definition setPlayers (v : list Player) (s : AppState) : AppState :=
  mk_state (gameState s) (gameMode s) v (newPlayerName s) (impostorIndices s)
    (currentWord s) (currentPlayerIndex s) (isRevealed s) (editingPlayerId s)
    (round s) (isPressed s) (showRules s).
Definition setNewPlayerName (v : string) (s : AppState) : AppState :=
  mk_state (gameState s) (gameMode s) (players s) v (impostorIndices s)
    (currentWord s) (currentPlayerIndex s) (isRevealed s) (editingPlayerId s)
    (round s) (isPressed s) (showRules s).
Definition setImpostorIndices (v : list (option Z)) (s : AppState) : AppState :=
  mk_state (gameState s) (gameMode s) (players s) (newPlayerName s) v
    (currentWord s) (currentPlayerIndex s) (isRevealed s) (editingPlayerId s)
    (round s) (isPressed s) (showRules s).
Definition setCurrentWord (v : option string) (s : AppState) : AppState :=
  mk_state (gameState s) (gameMode s) (players s) (newPlayerName s)
    (impostorIndices s) v (currentPlayerIndex s) (isRevealed s)
    (editingPlayerId s) (round s) (isPressed s) (showRules s).
Definition setCurrentPlayerIndex (v : Z) (s : AppState) : AppState :=
  mk_state (gameState s) (gameMode s) (players s) (newPlayerName s)
    (impostorIndices s) (currentWord s) v (isRevealed s) (editingPlayerId s)
    (round s) (isPressed s) (showRules s).
Definition setIsRevealed (v : bool) (s : AppState) : AppState :=
  mk_state (gameState s) (gameMode s) (players s) (newPlayerName s)
    (impostorIndices s) (currentWord s) (currentPlayerIndex s) v
    (editingPlayerId s) (round s) (isPressed s) (showRules s).
Definition setEditingPlayerId (v : option string) (s : AppState) : AppState :=
  mk_state (gameState s) (gameMode s) (players s) (newPlayerName s)
    (impostorIndices s) (currentWord s) (currentPlayerIndex s) (isRevealed s)
    v (round s) (isPressed s) (showRules s).
Definition setRound (f : Z -> Z) (s : AppState) : AppState :=
  mk_state (gameState s) (gameMode s) (players s) (newPlayerName s)
    (impostorIndices s) (currentWord s) (currentPlayerIndex s) (isRevealed s)
    (editingPlayerId s) (f (round s)) (isPressed s) (showRules s).
Definition setIsPressed (v : bool) (s : AppState) : AppState :=
  mk_state (gameState s) (gameMode s) (players s) (newPlayerName s)
    (impostorIndices s) (currentWord s) (currentPlayerIndex s) (isRevealed s)
    (editingPlayerId s) (round s) v (showRules s).
Definition setShowRules (v : bool) (s : AppState) : AppState :=
  mk_state (gameState s) (gameMode s) (players s) (newPlayerName s)
    (impostorIndices s) (currentWord s) (currentPlayerIndex s) (isRevealed s)
    (editingPlayerId s) (round s) (isPressed s) v.

(** [arr.length] *)
Definition len {A} (l : list A) : Z := Z.of_nat (length l).

(** [arr[i]]: [undefined] outside the array. *)
Definition index {A} (l : list A) (i : Z) : option A :=
  if i <? 0 then None else l !! Z.to_nat i.

(** [arr.splice(start, 1)]: the removed elements and what is left in [arr].
    A negative [start] counts from the end, a large one is clamped. *)
Definition splice1 {A} (start : Z) (l : list A) : list A * list A :=
  let a := Z.to_nat (if start <? 0 then Z.max (len l + start) 0
                     else Z.min start (len l)) in
  (take 1 (drop a l), delete a l).

(** A JavaScript string is held as its UTF-8 bytes.  [str.trim()] removes
    white space and line terminators from both ends: TAB, LF, VT, FF, CR
    and SP, one byte each ([Ascii.is_space]), and U+00A0, U+1680, U+2000
    to U+200A, U+2028, U+2029, U+202F, U+205F, U+3000 and U+FEFF, two
    or three bytes each. *)
Definition byte (c : Ascii.ascii) : N := Ascii.N_of_ascii c.

(** U+00A0 is C2 A0. *)
Definition white2 (c1 c2 : Ascii.ascii) : bool :=
  ((byte c1 =? 194) && (byte c2 =? 160))%N.

(** U+1680 is E1 9A 80; U+2000 to U+200A, U+2028, U+2029 and U+202F are
    E2 80 followed by 80 to 8A, A8, A9 and AF; U+205F is E2 81 9F;
    U+3000 is E3 80 80; U+FEFF is EF BB BF. *)
Definition white3 (c1 c2 c3 : Ascii.ascii) : bool :=
  ((byte c1 =? 225) && (byte c2 =? 154) && (byte c3 =? 128)
   || (byte c1 =? 226) && (byte c2 =? 128)
      && ((128 <=? byte c3) && (byte c3 <=? 138)
          || (byte c3 =? 168) || (byte c3 =? 169) || (byte c3 =? 175))
   || (byte c1 =? 226) && (byte c2 =? 129) && (byte c3 =? 159)
   || (byte c1 =? 227) && (byte c2 =? 128) && (byte c3 =? 128)
   || (byte c1 =? 239) && (byte c2 =? 187) && (byte c3 =? 191))%N.

(** Drop white-space characters from the front, be they one, two or three
    bytes long; [w2] and [w3] say which pairs and triples of bytes are
    one. *)
Fixpoint strip_white (w2 : Ascii.ascii -> Ascii.ascii -> bool)
    (w3 : Ascii.ascii -> Ascii.ascii -> Ascii.ascii -> bool) (s : string) : string :=
  match s with
  | String c1 r1 =>
      if Ascii.is_space c1 then strip_white w2 w3 r1
      else
        match r1 with
        | String c2 r2 =>
            if w2 c1 c2 then strip_white w2 w3 r2
            else
              match r2 with
              | String c3 r3 => if w3 c1 c2 c3 then strip_white w2 w3 r3 else s
              | EmptyString => s
              end
        | EmptyString => s
        end
  | EmptyString => s
  end.

Definition trimStart (s : string) : string := strip_white white2 white3 s.

(** From the end: the same on the reversed bytes, each character's bytes
    read backwards. *)
Definition trimEnd (s : string) : string :=
  String.rev (strip_white (λ a b, white2 b a) (λ a b c, white3 c b a) (String.rev s)).

Definition trim (s : string) : string := trimEnd (trimStart s).

(** A string is truthy when it is not empty. *)
Definition truthy (s : string) : bool :=
  match s with EmptyString => false | _ => true end.

(* ===================================================================== *)
(** ** Gesture numbers                                                     *)
(* ===================================================================== *)

(** A JavaScript number as the drag gesture reports it: every finite
    binary64 value is a rational. *)
Inductive Number : Type :=
  | NaN
  | NegInfinity
  | Finite (q : Q)
  | PosInfinity.

(** [a < b] as JavaScript evaluates it: false as soon as one side is NaN. *)
Definition Number_ltb (a b : Number) : bool :=
  match a, b with
  | NaN, _ | _, NaN => false
  | _, NegInfinity => false
  | NegInfinity, _ => true
  | PosInfinity, _ => false
  | Finite _, PosInfinity => true
  | Finite x, Finite y => negb (Qle_bool y x)
  end.

(** The mathematical order on the extended reals; NaN is unordered. *)
Inductive Number_lt : Number -> Number -> Prop :=
  | lt_finite x y : (x < y)%Q -> Number_lt (Finite x) (Finite y)
  | lt_neg_finite y : Number_lt NegInfinity (Finite y)
  | lt_neg_pos : Number_lt NegInfinity PosInfinity
  | lt_finite_pos x : Number_lt (Finite x) PosInfinity.

Definition num (z : Z) : Number := Finite (inject_Z z).

Record Point : Type := mk_point { x : Number; y : Number }.
Record PanInfo : Type := mk_info { offset : Point; velocity : Point }.

(* ===================================================================== *)
(** ** [Array.prototype.sort] under a comparator that draws                *)
(* ===================================================================== *)

(** The built-in sort is the engine's code, not the component's, and for
    a comparator that is not consistent, as the shuffle's, ECMAScript
    leaves the resulting order to the implementation.  What is taken from
    the engines here is that [sort] is a comparison sort working on a copy
    of the array: it calls the comparator on two slots and continues
    according to the sign of the answer, it moves elements around (a shift
    or a rotation is a sequence of exchanges), and it stops.  Which plan
    an engine runs on arrays of a given length is left open; that a plan
    neither drops nor duplicates an element is part of this assumption,
    not a consequence of the language standard. *)
Inductive SortPlan : Type :=
  | Done
  | Exchange (a b : nat) (next : SortPlan)
  | Compare (a b : nat) (neg zero pos : SortPlan).

Definition exchange {A} (a b : nat) (items : list A) : list A :=
  match items !! a, items !! b with
  | Some va, Some vb => <[a := vb]> (<[b := va]> items)
  | _, _ => items
  end.

Fixpoint run_plan {A} (comparefn : option A -> option A -> IO Z)
    (p : SortPlan) (items : list A) : IO (list A) :=
  match p with
  | Done => mret items
  | Exchange a b next => run_plan comparefn next (exchange a b items)
  | Compare a b neg zero pos =>
      v ← comparefn (items !! a) (items !! b);
      if v <? 0 then run_plan comparefn neg items
      else if v =? 0 then run_plan comparefn zero items
      else run_plan comparefn pos items
  end.

(** The comparator of the shuffle: [() => Math.random() - 0.5]. *)
Definition random_comparator {A} (_ _ : option A) : IO Z :=
  u ← Math_random; mret (sub_half u).

(** A plain insertion sort on three slots, as an example of a plan: insert
    slot 1 before slot 0 when it compares smaller, then sink slot 2.  No
    engine is claimed to run this very plan. *)
Definition insertion_sort_3 : SortPlan :=
  let sink2 :=
    Compare 2 1
      (Exchange 2 1 (Compare 1 0 (Exchange 1 0 Done) Done Done))
      Done Done in
  Compare 1 0 (Exchange 1 0 sink2) sink2 sink2.

(* ===================================================================== *)
(** ** Event handlers                                                      *)
(* ===================================================================== *)

Section Handlers.

(** [import { WORDS } from './words'] *)
Variable WORDS : list string.
(** [Number.prototype.toString(36)] on a draw. *)
Variable toString36 : unit_double -> string.
(** The engine's sort, by array length. *)
Variable engine_sort : nat -> SortPlan.

Definition addPlayer (s : AppState) : IO AppState :=
  if truthy (trim (newPlayerName s)) then
    u ← Math_random;
    mret (setNewPlayerName ""
           (setPlayers
              (players s ++
               [mk_player (String.substring 2 9 (toString36 u))
                          (trim (newPlayerName s))]) s))
  else mret s.

Definition removePlayer (i : string) (s : AppState) : AppState :=
  if 3 <? len (players s) then
    setPlayers (filter (λ p, id p ≠ i) (players s)) s
  else s.

Definition updatePlayerName (i : string) (n : string) (s : AppState) : AppState :=
  setPlayers
    ((λ p, if decide (id p = i) then mk_player (id p) n else p) <$> players s) s.

(** The loop [for (let i = 0; i < numImpostors; i++)] with its two
    arrays; [count] is the number of iterations left. *)
Fixpoint draw_impostors (count : nat) (allIndices : list Z)
    (indices : list (option Z)) : IO (list (option Z)) :=
  match count with
  | O => mret indices
  | S count' =>
      u ← Math_random;
      let randomIndex := floor_mul u (len allIndices) in
      let '(removed, rest) := splice1 randomIndex allIndices in
      draw_impostors count' rest (indices ++ [removed !! 0%nat])
  end.

Definition startGame (s : AppState) : IO AppState :=
  indices ← match gameMode s with
            | classic =>
                u ← Math_random;
                mret [Some (floor_mul u (len (players s)))]
            | uncertainty =>
                u ← Math_random;
                let numImpostors := floor_mul u (len (players s) - 1) + 1 in
                let allIndices := seqZ 0 (len (players s)) in
                draw_impostors (Z.to_nat numImpostors) allIndices []
            end;
  u ← Math_random;
  let randomWord := index WORDS (floor_mul u (len WORDS)) in
  vibrate 50;;
  mret
    ((if decide (gameState s = finished) then setRound (λ prev, prev + 1) else λ s', s')
       (setIsPressed false
         (setIsRevealed false
           (setGameState playing
             (setCurrentPlayerIndex 0
               (setCurrentWord randomWord
                 (setImpostorIndices indices s))))))).

Definition nextPlayer (s : AppState) : IO AppState :=
  if currentPlayerIndex s <? len (players s) - 1 then
    mret (setIsPressed false
           (setIsRevealed false
             (setCurrentPlayerIndex (currentPlayerIndex s + 1) s)))
  else
    confetti;;
    mret (setGameState finished s).

Definition shufflePlayers (s : AppState) : IO AppState :=
  shuffled ← run_plan random_comparator
               (engine_sort (length (players s))) (players s);
  vibrate 20;;
  mret (setPlayers shuffled s).

Definition resetGame (s : AppState) : AppState :=
  setPlayers default_players (setGameState setup s).

Definition handleDragEnd (info : PanInfo) (s : AppState) : IO AppState :=
  if Number_ltb (y (offset info)) (num (-50))
     || Number_ltb (y (velocity info)) (num (-500)) then
    vibrate 10;;
    mret (setIsRevealed true s)
  else if Number_ltb (num 30) (y (offset info))
          || Number_ltb (num 500) (y (velocity info)) then
    vibrate 5;;
    mret (setIsRevealed false s)
  else mret s.

(** The hold button: [onPointerDown], [onPointerUp], [onPointerLeave]. *)
Definition onPointerDown (s : AppState) : IO AppState :=
  vibrate 10;;
  mret (setIsPressed true s).
Definition onPointerUp (s : AppState) : AppState := setIsPressed false s.
Definition onPointerLeave (s : AppState) : AppState := setIsPressed false s.

End Handlers.

(* ===================================================================== *)
(** ** The view: which handler an event can reach                          *)
(* ===================================================================== *)

(** The user events the JSX binds a handler to, and the drag gesture, for
    which [handleDragEnd] is defined but bound to no element. *)
Inductive Event : Type :=
  (* the panel rendered when gameState === 'setup' *)
  | ClickRules
  | ClickShuffle
  | ClickName (i : string)
  | ChangeName (i : string) (text : string)
  | EndEdit
  | ClickPencil (i : string)
  | ClickRemove (i : string)
  | TypeNewName (text : string)
  | ClickAdd
  | ClickMode (m : GameMode)
  | ClickStart
  (* the panel rendered when gameState === 'playing' *)
  | PointerDown
  | PointerUp
  | PointerLeave
  | ClickNext
  (* the panel rendered when gameState === 'finished' *)
  | ClickNewRound
  | ClickBackToStart
  (* the rules modal, rendered when showRules *)
  | CloseRules
  (* no element carries an onDragEnd *)
  | DragEnd (info : PanInfo).

Definition has_player (i : string) (s : AppState) : bool :=
  bool_decide (i ∈ id <$> players s).

(** Is the control that receives the event part of the tree rendered
    from the state [s]?  On a settled screen [s] is the current state; a
    panel that is animating out is the render of an earlier one, see
    [Screen].  The rules modal covers the page while it is open; the
    controls under it are still counted as rendered, which only adds
    behaviours. *)
Definition rendered (s : AppState) (e : Event) : bool :=
  match e with
  | ClickRules | ClickShuffle | TypeNewName _ | ClickAdd | ClickMode _ =>
      bool_decide (gameState s = setup)
  | ClickName i =>
      bool_decide (gameState s = setup) && has_player i s
      && negb (bool_decide (editingPlayerId s = Some i))
  | ChangeName i _ =>
      bool_decide (gameState s = setup) && has_player i s
      && bool_decide (editingPlayerId s = Some i)
  | EndEdit =>
      bool_decide (gameState s = setup)
      && match editingPlayerId s with
         | Some i => has_player i s
         | None => false
         end
  | ClickPencil i | ClickRemove i =>
      bool_decide (gameState s = setup) && has_player i s
  | ClickStart =>
      (* disabled={players.length < 3} *)
      bool_decide (gameState s = setup) && negb (len (players s) <? 3)
  | PointerDown | PointerUp | PointerLeave | ClickNext =>
      bool_decide (gameState s = playing)
  | ClickNewRound | ClickBackToStart =>
      bool_decide (gameState s = finished)
  | CloseRules => showRules s
  | DragEnd _ => false
  end.

Section Dispatch.

Variable WORDS : list string.
Variable toString36 : unit_double -> string.
Variable engine_sort : nat -> SortPlan.

(** The handler the JSX binds to the control of an event. *)
Definition handler (e : Event) (s : AppState) : IO AppState :=
  match e with
  | ClickRules => mret (setShowRules true s)
  | ClickShuffle => shufflePlayers engine_sort s
  | ClickName i => mret (setEditingPlayerId (Some i) s)
  | ChangeName i text => mret (updatePlayerName i text s)
  | EndEdit => mret (setEditingPlayerId None s)
  | ClickPencil i =>
      mret (setEditingPlayerId
              (if decide (Some i = editingPlayerId s) then None else Some i) s)
  | ClickRemove i => mret (removePlayer i s)
  | TypeNewName text => mret (setNewPlayerName text s)
  | ClickAdd => addPlayer toString36 s
  | ClickMode m => mret (setGameMode m s)
  | ClickStart | ClickNewRound => startGame WORDS s
  | PointerDown => onPointerDown s
  | PointerUp => mret (onPointerUp s)
  | PointerLeave => mret (onPointerLeave s)
  | ClickNext => nextPlayer s
  | ClickBackToStart => mret (resetGame s)
  | CloseRules => mret (setShowRules false s)
  | DragEnd info => handleDragEnd info s
  end.

(** One event of the user on a settled screen: it reaches its handler
    only through a rendered control, and the handler's closure is of the
    current render. *)
Definition dispatch (e : Event) (s : AppState) : IO AppState :=
  if rendered s e then handler e s else mret s.

Fixpoint dispatch_all (es : list Event) (s : AppState) : IO AppState :=
  match es with
  | [] => mret s
  | e :: es' => s' ← dispatch e s; dispatch_all es' s'
  end.

End Dispatch.

(** [nextPlayer] called [k] times in a row. *)
Fixpoint advance (k : nat) (s : AppState) : IO AppState :=
  match k with
  | O => mret s
  | S k' => s' ← nextPlayer s; advance k' s'
  end.

(** [removePlayer] called with each identifier in turn. *)
Definition remove_all (ids : list string) (s : AppState) : AppState :=
  foldl (λ s' i, removePlayer i s') s ids.

(** Concrete draws and sources for the examples. *)
Definition draw_zero : unit_double := mk_unit 0 eq_refl.
Definition draw_half : unit_double := mk_unit (2 ^ 52) eq_refl.
Definition draw_max : unit_double := mk_unit (2 ^ 53 - 1) eq_refl.
Definition draws (l : list unit_double) : RandomSource :=
  λ i, default draw_zero (l !! i).
Definition world_of (l : list unit_double) : World := mk_world (draws l) true [].


(* ===================================================================== *)
(** ** The assignment as the specification words it                        *)
(* ===================================================================== *)

(** "Maintain a working pool of all indices, repeatedly pick a random
    element from the remaining pool and remove it, k times": the element
    picked is the one at position [floor (u * |pool|)] for a fresh draw. *)
Fixpoint pool_draws (k : nat) (pool : list Z) (src : RandomSource) : list Z :=
  match k with
  | O => []
  | S k' =>
      let j := Z.to_nat (floor_mul (src 0%nat) (len pool)) in
      match pool !! j with
      | Some v => v :: pool_draws k' (delete j pool) (λ i, src (S i))
      | None => []
      end
  end.

(** The source after [k] calls of [Math.random]. *)
Definition skip (k : nat) (src : RandomSource) : RandomSource :=
  λ i, src (k + i)%nat.

(** The number of [Math.random()] calls [startGame] makes before it draws
    the word. *)
Definition draws_before_word (s : AppState) (w : World) : nat :=
  match gameMode s with
  | classic => 1
  | uncertainty =>
      S (Z.to_nat (floor_mul (random_source w 0%nat) (len (players s) - 1) + 1))
  end.

(** The events of the advance and hold controls, and the drag gesture. *)
Definition playing_only (e : Event) : Prop :=
  match e with
  | ClickNext | PointerDown | PointerUp | PointerLeave | DragEnd _ => True
  | _ => False
  end.

(* ===================================================================== *)
(** ** Shuffle: likelihood of an ordering                                  *)
(* ===================================================================== *)

(** How often the comparator [() => Math.random() - 0.5] answers with each
    sign, out of [odds_total] equally likely draws. *)
Record SignOdds : Type := mk_odds { neg_odds : Z; zero_odds : Z; pos_odds : Z }.

Definition odds_total (o : SignOdds) : Z := neg_odds o + zero_odds o + pos_odds o.

(** On the grid of [2^53] values: [u < 0.5] for [2^52] of them, [u = 0.5]
    for one, [u > 0.5] for the rest. *)
Definition grid_odds : SignOdds := mk_odds (2 ^ 52) 1 (2 ^ 52 - 1).

(** For a real number drawn uniformly from [0, 1): one half each. *)
Definition ideal_odds : SignOdds := mk_odds 1 0 1.

(** The largest number of comparator calls on a path of the plan. *)
Fixpoint plan_depth (p : SortPlan) : nat :=
  match p with
  | Done => 0
  | Exchange _ _ next => plan_depth next
  | Compare _ _ neg zero pos =>
      S (plan_depth neg `max` (plan_depth zero `max` plan_depth pos))
  end.

(** Out of [odds_total ^ d] equally likely sequences of [d] comparator
    answers, the number on which the plan turns [items] into [out]. *)
Fixpoint ways {A} `{EqDecision A} (o : SignOdds) (p : SortPlan) (d : nat)
    (items out : list A) : Z :=
  match p with
  | Done => if decide (items = out) then odds_total o ^ Z.of_nat d else 0
  | Exchange a b next => ways o next d (exchange a b items) out
  | Compare _ _ neg zero pos =>
      match d with
      | O => 0
      | S d' =>
          neg_odds o * ways o neg d' items out
          + zero_odds o * ways o zero d' items out
          + pos_odds o * ways o pos d' items out
      end
  end.

(** "Each of the |roster|! orderings equally likely": every ordering of
    the roster comes out with probability 1 / |roster|!. *)
Definition shuffles_uniformly (o : SignOdds) (p : SortPlan) (roster : list Player) : Prop :=
  forall out : list Player,
    out ≡ₚ roster ->
    Z.of_nat (fact (length roster)) * ways o p (plan_depth p) roster out
    = odds_total o ^ Z.of_nat (plan_depth p).

(** The same count, by listing the [2^53] values each draw can take and
    following the branch [run_plan] takes on [u - 0.5]. *)
Fixpoint hits {A} `{EqDecision A} (p : SortPlan) (d : nat) (items out : list A) : nat :=
  match p with
  | Done => if decide (items = out) then (Z.to_nat scale ^ d)%nat else 0%nat
  | Exchange a b next => hits next d (exchange a b items) out
  | Compare _ _ neg zero pos =>
      match d with
      | O => 0%nat
      | S d' =>
          sum_list_with
            (λ m, if m - 2 ^ 52 <? 0 then hits neg d' items out
                  else if m - 2 ^ 52 =? 0 then hits zero d' items out
                  else hits pos d' items out)
            (seqZ 0 scale)
      end
  end.

(* ===================================================================== *)
(** ** Sessions and gestures used as examples                              *)
(* ===================================================================== *)

(** A session in which the hold button is still pressed when the last
    player taps next: start, advance twice, press, and advance. *)
Definition held_until_finished : AppState :=
  fst (dispatch_all ["SUN"] (λ _, "0.abc") (λ _, insertion_sort_3)
         [ClickStart; ClickNext; ClickNext; PointerDown; ClickNext]
         initial_state (world_of [draw_half; draw_max])).

(** A swipe of 60 upwards, released at rest. *)
Definition drag_up : PanInfo :=
  mk_info (mk_point (num 0) (num (-60))) (mk_point (num 0) (num 0)).

(** A gesture with the given vertical offset and velocity. *)
Definition drag (oy vy : Number) : PanInfo :=
  mk_info (mk_point (num 0) oy) (mk_point (num 0) vy).

(** A card already revealed. *)
Definition revealed_state : AppState := setIsRevealed true initial_state.

(** The roster two players join when [Math.random()] returns 0.5 for both:
    [(0.5).toString(36)] is "0.i", so both get the identifier "i".  Player
    "1" then leaves. *)
Definition twin_roster : AppState :=
  fst (dispatch_all ["SUN"] (λ _, "0.i") (λ _, insertion_sort_3)
         [TypeNewName "Ana"; ClickAdd; TypeNewName "Eva"; ClickAdd; ClickRemove "1"]
         initial_state (world_of [draw_half; draw_half])).

(** Five players with distinct identifiers. *)
Definition five_players : AppState :=
  setPlayers (default_players ++ [mk_player "a" "Ana"; mk_player "b" "Eva"]) initial_state.

(* ===================================================================== *)
(** ** The view: what is shown                                             *)
(* ===================================================================== *)

(** [impostorIndices.includes(currentPlayerIndex)]: an [undefined] entry
    equals no number. *)
Definition includes (l : list (option Z)) (i : Z) : bool :=
  bool_decide (Some i ∈ l).

(** The face of the card in the Playing panel. *)
Inductive Card : Type :=
  | Hidden                          (* "Contenido oculto" *)
  | ImpostorCard                    (* "Eres el Impostor" *)
  | WordCard (word : option string).

Global Instance Card_eq_dec : EqDecision Card.
Proof. solve_decision. Defined.

(** [isPressed ? (impostorIndices.includes(currentPlayerIndex)
                  ? 'Eres el Impostor' : currentWord) : hidden] *)
Definition card (s : AppState) : Card :=
  if isPressed s then
    if includes (impostorIndices s) (currentPlayerIndex s) then ImpostorCard
    else WordCard (currentWord s)
  else Hidden.

(** The card seat [i] sees while holding the button. *)
Definition card_of_seat (s : AppState) (i : Z) : Card :=
  card (setIsPressed true (setCurrentPlayerIndex i s)).

(** [players[currentPlayerIndex].name], the title of the Playing panel;
    [None] when [players[currentPlayerIndex]] is undefined and the render
    throws. *)
Definition turn_name (s : AppState) : option string :=
  name <$> index (players s) (currentPlayerIndex s).

(** [impostorIndices.map(idx => players[idx].name)], the list of the
    Finished panel; an entry is [None] when [players[idx]] is undefined
    and the render throws. *)
Definition impostor_names (s : AppState) : list (option string) :=
  (λ o : option Z, o ≫= λ i, name <$> index (players s) i) <$> impostorIndices s.

(** [impostorIndices.length > 1 ? 'Los impostores eran...'
                                 : 'El impostor era...'] *)
Definition finished_heading (s : AppState) : string :=
  if 1 <? len (impostorIndices s) then "Los impostores eran..."
  else "El impostor era...".

(** What [updatePlayerName] maps over the roster:
    [p => p.id === id ? { ...p, name } : p]. *)
Definition renamed (i n : string) (p : Player) : Player :=
  if decide (id p = i) then mk_player (id p) n else p.

(** The characters of a string. *)
Definition chars (s : string) : list Ascii.ascii := String.list_ascii_of_string s.

(** A string of ASCII white space only, the empty one included. *)
Definition blank (s : string) : Prop :=
  Forall (λ c, Ascii.is_space c = true) (chars s).

(** The bytes of one white-space character. *)
Definition white_seq (w2 : Ascii.ascii -> Ascii.ascii -> bool)
    (w3 : Ascii.ascii -> Ascii.ascii -> Ascii.ascii -> bool)
    (l : list Ascii.ascii) : bool :=
  match l with
  | [c] => Ascii.is_space c
  | [c1; c2] => w2 c1 c2
  | [c1; c2; c3] => w3 c1 c2 c3
  | _ => false
  end.

(** White-space characters one after the other, and nothing else. *)
Inductive white_run (w2 : Ascii.ascii -> Ascii.ascii -> bool)
    (w3 : Ascii.ascii -> Ascii.ascii -> Ascii.ascii -> bool)
    : list Ascii.ascii -> Prop :=
  | white_run_nil : white_run w2 w3 []
  | white_run_app ws r :
      white_seq w2 w3 ws = true -> white_run w2 w3 r -> white_run w2 w3 (ws ++ r).

Definition no_white_head (w2 : Ascii.ascii -> Ascii.ascii -> bool)
    (w3 : Ascii.ascii -> Ascii.ascii -> Ascii.ascii -> bool)
    (l : list Ascii.ascii) : Prop :=
  forall ws, white_seq w2 w3 ws = true -> ~ ws `prefix_of` l.

Definition is_white_char : list Ascii.ascii -> bool := white_seq white2 white3.
Definition white_only : list Ascii.ascii -> Prop := white_run white2 white3.

(** The string with the given bytes. *)
Definition utf8 (l : list N) : string :=
  String.string_of_list_ascii (Ascii.ascii_of_N <$> l).

(** Every cell of the state but the roster and the name field holds what
    it held. *)
Definition same_but_roster_and_field (s s' : AppState) : Prop :=
  gameState s' = gameState s /\ gameMode s' = gameMode s /\
  impostorIndices s' = impostorIndices s /\ currentWord s' = currentWord s /\
  currentPlayerIndex s' = currentPlayerIndex s /\ isRevealed s' = isRevealed s /\
  editingPlayerId s' = editingPlayerId s /\ round s' = round s /\
  isPressed s' = isPressed s /\ showRules s' = showRules s.

(** A session on settled screens: the events of a user, dispatched one
    after the other from the state the component mounts with, each after
    the exit animation the one before it may have started is over. *)
Definition session (WORDS : list string) (toString36 : unit_double -> string)
    (engine_sort : nat -> SortPlan) (es : list Event) : IO AppState :=
  dispatch_all WORDS toString36 engine_sort es initial_state.

(** The mode button is not among the events. *)
Definition no_mode_click (es : list Event) : Prop := forall m, ClickMode m ∉ es.

(** The rounds the badge [R{round}] accounts for as completed: those
    before the current one, and the current one once it is Finished. *)
Definition rounds_completed (s : AppState) : Z :=
  round s - 1 + (if decide (gameState s = finished) then 1 else 0).

(** What a round in progress needs of the state: a roster of at least
    three, the pointer on a seat, and an assignment of distinct seats,
    at least one and not all of them. *)
Definition assignment_ok (s : AppState) : Prop :=
  exists P : list Z,
    impostorIndices s = Some <$> P /\
    NoDup P /\
    (forall i, i ∈ P -> 0 <= i < len (players s)) /\
    1 <= len P <= len (players s) - 1.

Definition word_ok (WORDS : list string) (s : AppState) : Prop :=
  exists word : string, currentWord s = Some word /\ word ∈ WORDS.

Definition session_ok (WORDS : list string) (s : AppState) : Prop :=
  gameState s <> reveal /\
  isRevealed s = false /\
  1 <= round s /\
  (gameState s = setup \/
   (3 <= len (players s) /\
    0 <= currentPlayerIndex s < len (players s) /\
    assignment_ok s /\
    (gameMode s = classic -> len (impostorIndices s) = 1) /\
    (WORDS <> [] -> word_ok WORDS s))).

(** The sign of [Math.random() - 0.5] for a draw: negative below one
    half, zero at one half, positive above. *)
Definition sign_of_draw (u : unit_double) : Z :=
  if mant u <? 2 ^ 52 then -1 else if mant u =? 2 ^ 52 then 0 else 1.

(** The ordering a plan reaches when its comparator calls are answered,
    in call order, by numbers of the signs [answers 0], [answers 1], ...,
    and the number of calls it makes on the way. *)
Fixpoint follow {A} (p : SortPlan) (answers : nat -> Z) (items : list A)
    : list A * nat :=
  match p with
  | Done => (items, 0%nat)
  | Exchange a b next => follow next answers (exchange a b items)
  | Compare _ _ neg zero pos =>
      let rest := λ i, answers (S i) in
      let r := if answers 0%nat <? 0 then follow neg rest items
               else if answers 0%nat =? 0 then follow zero rest items
               else follow pos rest items in
      (fst r, S (snd r))
  end.

(** Every cell of the state but [players] holds what it held. *)
Definition same_but_players (s s' : AppState) : Prop :=
  gameState s' = gameState s /\ gameMode s' = gameMode s /\
  newPlayerName s' = newPlayerName s /\
  impostorIndices s' = impostorIndices s /\ currentWord s' = currentWord s /\
  currentPlayerIndex s' = currentPlayerIndex s /\ isRevealed s' = isRevealed s /\
  editingPlayerId s' = editingPlayerId s /\ round s' = round s /\
  isPressed s' = isPressed s /\ showRules s' = showRules s.

(** Every cell of the state but [isRevealed] holds what it held. *)
Definition same_but_revealed (s s' : AppState) : Prop :=
  gameState s' = gameState s /\ gameMode s' = gameMode s /\
  players s' = players s /\ newPlayerName s' = newPlayerName s /\
  impostorIndices s' = impostorIndices s /\ currentWord s' = currentWord s /\
  currentPlayerIndex s' = currentPlayerIndex s /\
  editingPlayerId s' = editingPlayerId s /\ round s' = round s /\
  isPressed s' = isPressed s /\ showRules s' = showRules s.

(* ===================================================================== *)
(** ** Exit animations: the panel that is still on screen                  *)
(* ===================================================================== *)

(** The three panels are the children of one [<AnimatePresence mode="wait">]
    (line 160).  The Setup and the Playing panel carry an [exit] prop
    (lines 166 and 290): when the phase leaves them they stay mounted
    while they animate out, and the panel of the new phase is mounted only
    when they are gone.  What stays mounted is the element of the last
    render in which the panel's condition held: its controls still take
    events, and their handlers are the closures of that render.  They read
    the state as it was then, and their setter calls land on the state as
    it is now.  The Finished panel has no [exit] prop and is unmounted at
    once. *)

(** A setter call; React applies the calls a handler queued, in order, to
    the state current when the handler returns. *)
Inductive Update : Type :=
  | SetGameState (v : GameState)
  | SetGameMode (v : GameMode)
  | SetPlayers (v : list Player)
  | SetNewPlayerName (v : string)
  | SetImpostorIndices (v : list (option Z))
  | SetCurrentWord (v : option string)
  | SetCurrentPlayerIndex (v : Z)
  | SetIsRevealed (v : bool)
  | SetEditingPlayerId (v : option string)
  | SetRound (f : Z -> Z)
  | SetIsPressed (v : bool)
  | SetShowRules (v : bool).

Definition apply_update (u : Update) (s : AppState) : AppState :=
  match u with
  | SetGameState v => setGameState v s
  | SetGameMode v => setGameMode v s
  | SetPlayers v => setPlayers v s
  | SetNewPlayerName v => setNewPlayerName v s
  | SetImpostorIndices v => setImpostorIndices v s
  | SetCurrentWord v => setCurrentWord v s
  | SetCurrentPlayerIndex v => setCurrentPlayerIndex v s
  | SetIsRevealed v => setIsRevealed v s
  | SetEditingPlayerId v => setEditingPlayerId v s
  | SetRound f => setRound f s
  | SetIsPressed v => setIsPressed v s
  | SetShowRules v => setShowRules v s
  end.

Definition apply_updates (us : list Update) (s : AppState) : AppState :=
  foldl (λ s' u, apply_update u s') s us.

Section Closures.

Variable WORDS : list string.
Variable toString36 : unit_double -> string.
Variable engine_sort : nat -> SortPlan.

(** The setter calls the handler of an event makes, and what it does to
    the world, when its closure was created in the render of [c]: every
    read in the handler's body is a read of [c]. *)
Definition calls (e : Event) (c : AppState) : IO (list Update) :=
  match e with
  | ClickRules => mret [SetShowRules true]
  | ClickShuffle =>
      shuffled ← run_plan random_comparator
                   (engine_sort (length (players c))) (players c);
      vibrate 20;;
      mret [SetPlayers shuffled]
  | ClickName i => mret [SetEditingPlayerId (Some i)]
  | ChangeName i text =>
      mret [SetPlayers
              ((λ p, if decide (id p = i) then mk_player (id p) text else p)
                 <$> players c)]
  | EndEdit => mret [SetEditingPlayerId None]
  | ClickPencil i =>
      mret [SetEditingPlayerId
              (if decide (Some i = editingPlayerId c) then None else Some i)]
  | ClickRemove i =>
      mret (if 3 <? len (players c)
            then [SetPlayers (filter (λ p, id p ≠ i) (players c))]
            else [])
  | TypeNewName text => mret [SetNewPlayerName text]
  | ClickAdd =>
      if truthy (trim (newPlayerName c)) then
        u ← Math_random;
        mret [SetPlayers
                (players c ++
                 [mk_player (String.substring 2 9 (toString36 u))
                            (trim (newPlayerName c))]);
              SetNewPlayerName ""]
      else mret []
  | ClickMode m => mret [SetGameMode m]
  | ClickStart | ClickNewRound =>
      indices ← match gameMode c with
                | classic =>
                    u ← Math_random;
                    mret [Some (floor_mul u (len (players c)))]
                | uncertainty =>
                    u ← Math_random;
                    let numImpostors := floor_mul u (len (players c) - 1) + 1 in
                    let allIndices := seqZ 0 (len (players c)) in
                    draw_impostors (Z.to_nat numImpostors) allIndices []
                end;
      u ← Math_random;
      let randomWord := index WORDS (floor_mul u (len WORDS)) in
      vibrate 50;;
      mret ([SetImpostorIndices indices; SetCurrentWord randomWord;
             SetCurrentPlayerIndex 0; SetGameState playing;
             SetIsRevealed false; SetIsPressed false]
            ++ (if decide (gameState c = finished)
                then [SetRound (λ prev, prev + 1)] else []))
  | PointerDown => vibrate 10;; mret [SetIsPressed true]
  | PointerUp | PointerLeave => mret [SetIsPressed false]
  | ClickNext =>
      if currentPlayerIndex c <? len (players c) - 1 then
        mret [SetCurrentPlayerIndex (currentPlayerIndex c + 1);
              SetIsRevealed false; SetIsPressed false]
      else
        confetti;;
        mret [SetGameState finished]
  | ClickBackToStart => mret [SetGameState setup; SetPlayers default_players]
  | CloseRules => mret [SetShowRules false]
  | DragEnd info =>
      if Number_ltb (y (offset info)) (num (-50))
         || Number_ltb (y (velocity info)) (num (-500)) then
        vibrate 10;;
        mret [SetIsRevealed true]
      else if Number_ltb (num 30) (y (offset info))
              || Number_ltb (num 500) (y (velocity info)) then
        vibrate 5;;
        mret [SetIsRevealed false]
      else mret []
  end.

(** What is on screen: the state, and the render a panel that is
    animating out was last made from, if one is. *)
Record Screen : Type := mk_screen {
  current : AppState;
  leaving : option AppState
}.

(** The panels with an [exit] prop. *)
Definition has_exit (g : GameState) : bool :=
  match g with
  | setup | playing => true
  | reveal | finished => false
  end.

(** The render the mounted panel's element comes from: the frozen one
    while a panel is leaving, the current one otherwise. *)
Definition on_screen (scr : Screen) : AppState :=
  default (current scr) (leaving scr).

(** The rules modal is not part of a panel: it is rendered from the
    current state.  Its handlers read nothing, and closing a modal that is
    itself animating out sets [showRules] to the value it has. *)
Definition live_rendered (scr : Screen) (e : Event) : bool :=
  match e with
  | CloseRules => rendered (current scr) e
  | _ => rendered (on_screen scr) e
  end.

(** One event of the user.  When it changes the phase on a settled screen
    whose panel has an [exit] prop, that panel starts to leave, frozen at
    the render the event found. *)
Definition deliver (e : Event) (scr : Screen) : IO Screen :=
  if live_rendered scr e then
    us ← calls e (on_screen scr);
    let s' := apply_updates us (current scr) in
    mret (mk_screen s'
            match leaving scr with
            | Some c => Some c
            | None =>
                if has_exit (gameState (current scr))
                   && negb (bool_decide (gameState s' = gameState (current scr)))
                then Some (current scr)
                else None
            end)
  else mret scr.

(** What reaches the component: an event of the user, or the end of an
    exit animation, after which the panel of the current phase is
    mounted. *)
Inductive Input : Type :=
  | User (e : Event)
  | ExitComplete.

Definition step (i : Input) (scr : Screen) : IO Screen :=
  match i with
  | User e => deliver e scr
  | ExitComplete => mret (mk_screen (current scr) None)
  end.

Fixpoint run (ins : list Input) (scr : Screen) : IO Screen :=
  match ins with
  | [] => mret scr
  | i :: ins' => scr' ← step i scr; run ins' scr'
  end.

(** From the mount of the component. *)
Definition live_session (ins : list Input) : IO Screen :=
  run ins (mk_screen initial_state None).

End Closures.

(** A user who lets every exit animation finish before the next event. *)
Definition patient (es : list Event) : list Input :=
  es ≫= λ e, [User e; ExitComplete].

(** What a panel that is leaving can be: the Setup panel, over a round
    that has started, or the Playing panel, frozen on the last seat, over
    a round that is finished. *)
Definition leaving_ok (scr : Screen) : Prop :=
  match leaving scr with
  | None => True
  | Some c =>
      (gameState c = setup /\ gameState (current scr) = playing) \/
      (gameState c = playing /\ gameState (current scr) = finished /\
       len (players c) - 1 <= currentPlayerIndex c)
  end.

(** Every cell of the state but [isPressed] holds what it held. *)
Definition same_but_pressed (s s' : AppState) : Prop :=
  gameState s' = gameState s /\ gameMode s' = gameMode s /\
  players s' = players s /\ newPlayerName s' = newPlayerName s /\
  impostorIndices s' = impostorIndices s /\ currentWord s' = currentWord s /\
  currentPlayerIndex s' = currentPlayerIndex s /\ isRevealed s' = isRevealed s /\
  editingPlayerId s' = editingPlayerId s /\ round s' = round s /\
  showRules s' = showRules s.

(** A round of the three default players played to its end: the last tap
    on next has just set the phase to Finished and the Playing panel is
    animating out. *)
Definition last_tap : list Input :=
  [User ClickStart; ExitComplete; User ClickNext; User ClickNext; User ClickNext].

Definition round_just_finished : Screen * World :=
  live_session ["SUN"] (λ _, "0.abc") (λ _, insertion_sort_3) last_tap
    (world_of [draw_half; draw_max]).

(** What no event can break, on time or late: the phase is never
    ['reveal'], revealed is never set, the round counter is at least 1
    and, with a word list that is not empty, outside Setup the word is
    one of the list. *)
Definition state_safe (WORDS : list string) (s : AppState) : Prop :=
  gameState s <> reveal /\ isRevealed s = false /\ 1 <= round s /\
  (WORDS <> [] -> gameState s <> setup -> word_ok WORDS s).

(* ===================================================================== *)
(** ** Rounding of the drawn index                                         *)
(* ===================================================================== *)

Section RoundingFacts.

Lemma scale_pos : 0 < scale.
Proof. unfold scale, prec. lia. Qed.

Lemma mant_bounds (u : unit_double) : 0 <= mant u < scale.
Proof.
  pose proof (mant_range u) as H.
  apply andb_prop in H as [H1 H2]. lia.
Qed.

(** Rounding moves a value by at most half a unit in the last place, and
    that half unit is at most [p / 2^53]. *)
Lemma round_nearest_even_bounds (p : Z) :
  0 <= p ->
  p - p / scale <= round_nearest_even p <= p + p / scale.
Proof.
  intros Hp. unfold round_nearest_even.
  destruct (Z.leb_spec (Z.log2 p - (prec - 1)) 0) as [Hs|Hs].
  - pose proof (Z.div_pos p scale Hp scale_pos). lia.
  - set (s := Z.log2 p - (prec - 1)) in *.
    assert (Hp0 : 0 < p).
    { destruct (Z.eq_dec p 0) as [->|]; [|lia].
      unfold s, prec in Hs. simpl in Hs. lia. }
    pose proof (Z.log2_spec p Hp0) as [Hlo _].
    assert (Hpow : 2 ^ Z.log2 p = 2 ^ (s - 1) * scale).
    { unfold scale. rewrite <- Z.pow_add_r by (unfold prec; lia).
      f_equal. unfold s. lia. }
    assert (Hhalf : 0 < 2 ^ (s - 1)) by (apply Z.pow_pos_nonneg; lia).
    assert (Hdiv : 2 ^ (s - 1) <= p / scale).
    { apply Z.div_le_lower_bound; [apply scale_pos|]. lia. }
    assert (H2s : 2 ^ s = 2 * 2 ^ (s - 1)).
    { replace s with (Z.succ (s - 1)) at 1 by lia.
      rewrite Z.pow_succ_r by lia. reflexivity. }
    pose proof (Z.div_mod p (2 ^ s) ltac:(lia)) as Hdm.
    pose proof (Z.mod_pos_bound p (2 ^ s) ltac:(lia)) as Hmod.
    repeat match goal with
           | |- context [if ?b then _ else _] => destruct b eqn:?
           end;
      rewrite ?Z.ltb_lt, ?Z.ltb_ge in *; nia.
Qed.

(** The index [Math.floor(Math.random() * n)] stays inside [0, n): the
    rounding of the product never reaches [n]. *)
Lemma floor_mul_range (u : unit_double) (n : Z) :
  0 < n -> 0 <= floor_mul u n < n.
Proof.
  intros Hn. unfold floor_mul, floor, mul.
  pose proof (mant_bounds u) as Hm. pose proof scale_pos as Hsc.
  rewrite Z.sgn_pos, Z.abs_eq, Z.mul_1_l by lia.
  set (p := mant u * n).
  assert (Hp : 0 <= p) by (unfold p; nia).
  pose proof (round_nearest_even_bounds p Hp) as [Hlo Hhi].
  assert (Hq : p / scale < n).
  { apply Z.div_lt_upper_bound; [lia|]. unfold p. nia. }
  assert (Hq0 : 0 <= p / scale) by (apply Z.div_pos; lia).
  assert (Hqp : p / scale <= p).
  { apply Z.div_le_upper_bound; [lia|]. nia. }
  split.
  - apply Z.div_pos; lia.
  - apply Z.div_lt_upper_bound; [lia|]. unfold p in *. nia.
Qed.

Lemma floor_mul_zero (u : unit_double) : floor_mul u 0 = 0.
Proof. reflexivity. Qed.

End RoundingFacts.

Section RoundingVersusExact.

(** Rounding never crosses an integer from above: integers below [2^53]
    are themselves binary64 values. *)
Lemma round_nearest_even_integer_below (p k : Z) :
  0 <= p < scale * scale -> k * scale <= p ->
  k * scale <= round_nearest_even p.
Proof.
  intros [Hp Hlt] Hk. unfold round_nearest_even.
  destruct (Z.leb_spec (Z.log2 p - (prec - 1)) 0) as [Hs|Hs]; [lia|].
  set (s := Z.log2 p - (prec - 1)) in *.
  assert (Hp0 : 0 < p).
  { destruct (Z.eq_dec p 0) as [->|]; [|lia].
    unfold s, prec in Hs. simpl in Hs. lia. }
  assert (Hs53 : s <= prec).
  { assert (Z.log2 p < 2 * prec); [|unfold s; lia].
    apply Z.log2_lt_pow2; [lia|].
    replace (2 ^ (2 * prec)) with (scale * scale); [lia|].
    unfold scale. rewrite <- Z.pow_add_r by (unfold prec; lia).
    f_equal; lia. }
  assert (H2s : 0 < 2 ^ s) by (apply Z.pow_pos_nonneg; lia).
  assert (Hsplit : scale = 2 ^ (prec - s) * 2 ^ s).
  { unfold scale. rewrite <- Z.pow_add_r by lia. f_equal. lia. }
  assert (Hq : k * 2 ^ (prec - s) <= p / 2 ^ s).
  { apply Z.div_le_lower_bound; [lia|]. rewrite Hsplit in Hk. lia. }
  assert (Hq' : p / 2 ^ s <=
                (if p mod 2 ^ s <? 2 ^ (s - 1) then p / 2 ^ s
                 else if 2 ^ (s - 1) <? p mod 2 ^ s then p / 2 ^ s + 1
                 else if Z.even (p / 2 ^ s) then p / 2 ^ s
                 else p / 2 ^ s + 1)).
  { repeat match goal with
           | |- context [if ?b then _ else _] => destruct b
           end; lia. }
  rewrite Hsplit at 1. nia.
Qed.

(** Binary64 rounding shifts the index by at most one grid step of the
    draw: [Math.floor(u * n)] is the exact floor at [u] or at the next
    grid value [u + 2^-53]. *)
Lemma floor_mul_exact_or_next (u : unit_double) (n : Z) :
  0 < n <= scale ->
  floor_mul u n = mant u * n / scale \/
  floor_mul u n = (mant u + 1) * n / scale.
Proof.
  intros [Hn Hns]. unfold floor_mul, floor, mul.
  pose proof (mant_bounds u) as Hm. pose proof scale_pos as Hsc.
  rewrite Z.sgn_pos, Z.abs_eq, Z.mul_1_l by lia.
  set (p := mant u * n).
  assert (Hp : 0 <= p < scale * scale) by (unfold p; nia).
  pose proof (round_nearest_even_bounds p (proj1 Hp)) as [_ Hhi].
  pose proof (round_nearest_even_integer_below p (p / scale) Hp) as Hlo.
  pose proof (Z.mul_div_le p scale Hsc) as Hdl.
  assert (Hq : p / scale < n).
  { apply Z.div_lt_upper_bound; [lia|]. unfold p. nia. }
  set (r := round_nearest_even p) in *.
  assert (H1 : p / scale <= r / scale).
  { apply Z.div_le_lower_bound; lia. }
  assert (H2 : r / scale <= (mant u + 1) * n / scale).
  { apply Z.div_le_mono; [lia|]. fold p. unfold p in *. lia. }
  assert (H3 : (mant u + 1) * n / scale <= p / scale + 1).
  { replace (p / scale + 1) with ((p + 1 * scale) / scale)
      by (rewrite Z.div_add by lia; reflexivity).
    apply Z.div_le_mono; [lia|]. unfold p. lia. }
  lia.
Qed.

(** The draws that give index [j] are those of the interval
    [j/n, (j+1)/n), up to one grid step at its ends: the [n] indices have
    equal shares of the draws up to that step. *)
Lemma floor_mul_preimage (u : unit_double) (n j : Z) :
  0 < n <= scale ->
  (floor_mul u n = j ->
   j * scale - n <= mant u * n < (j + 1) * scale) /\
  (j * scale <= mant u * n -> (mant u + 1) * n < (j + 1) * scale ->
   floor_mul u n = j).
Proof.
intros Hn. pose proof scale_pos as Hsc. pose proof (mant_bounds u) as Hm.
pose proof (floor_mul_exact_or_next u n Hn) as Hex.
pose proof (Z.div_mod (mant u * n) scale ltac:(lia)) as Hd1.
pose proof (Z.mod_pos_bound (mant u * n) scale Hsc) as Hb1.
pose proof (Z.div_mod ((mant u + 1) * n) scale ltac:(lia)) as Hd2.
pose proof (Z.mod_pos_bound ((mant u + 1) * n) scale Hsc) as Hb2.
split.
- intros Hj. destruct Hex as [He|He]; rewrite He in Hj; subst j; nia.
- intros Hlo Hhi.
  assert (H1 : mant u * n / scale = j).
  { symmetry. apply Z.div_unique with (r := mant u * n - j * scale); lia. }
  assert (H2 : (mant u + 1) * n / scale = j).
  { symmetry. apply Z.div_unique with (r := (mant u + 1) * n - j * scale); lia. }
  destruct Hex as [He|He]; rewrite He; assumption.
Qed.

(** Every index of [0, n) is drawn by some grid value (for every array
    length a program can have: [n <= 2^52]). *)
Lemma floor_mul_onto (n j : Z) :
  0 < n <= 2 ^ (prec - 1) -> 0 <= j < n ->
  exists u : unit_double, floor_mul u n = j.
Proof.
  intros [Hn Hns] [Hj0 Hjn]. pose proof scale_pos as Hsc.
  assert (Hsc2 : scale = 2 * 2 ^ (prec - 1)) by reflexivity.
  set (m := (j * scale + n - 1) / n).
  assert (Hm0 : 0 <= m) by (apply Z.div_pos; nia).
  assert (Hmlt : m < scale).
  { apply Z.div_lt_upper_bound; [lia|]. nia. }
  assert (Hrange : (0 <=? m) && (m <? scale) = true).
  { apply andb_true_intro. split; [apply Z.leb_le|apply Z.ltb_lt]; lia. }
  assert (Hmn_lo : j * scale <= m * n).
  { pose proof (Z.div_mod (j * scale + n - 1) n ltac:(lia)) as Hdm.
    pose proof (Z.mod_pos_bound (j * scale + n - 1) n Hn) as Hmb.
    fold m in Hdm. lia. }
  assert (Hmn_hi : m * n < j * scale + n).
  { pose proof (Z.mul_div_le (j * scale + n - 1) n Hn) as Hle.
    fold m in Hle. lia. }
  exists (mk_unit m Hrange).
  unfold floor_mul, floor, mul. cbn [mant].
  rewrite Z.sgn_pos, Z.abs_eq, Z.mul_1_l by lia.
  set (p := m * n) in *.
  assert (Hp : 0 <= p < scale * scale) by nia.
  pose proof (round_nearest_even_integer_below p j Hp Hmn_lo) as Hlo.
  pose proof (round_nearest_even_bounds p (proj1 Hp)) as [_ Hhi].
  assert (Hq : p / scale <= j).
  { apply Z.lt_succ_r. apply Z.div_lt_upper_bound; [lia|]. nia. }
  apply Z.le_antisymm.
  - apply Z.lt_succ_r. apply Z.div_lt_upper_bound; [lia|]. nia.
  - apply Z.div_le_lower_bound; lia.
Qed.

End RoundingVersusExact.

(* ===================================================================== *)
(** ** Lemmas on the assignment                                            *)
(* ===================================================================== *)

Ltac io_unfold :=
  unfold mbind, mret, IO_bind, IO_ret, Math_random, vibrate, confetti, emit in *.

(** One [splice] at a drawn position takes out exactly the element there. *)
Lemma splice1_at_draw (u : unit_double) (pool : list Z) :
  pool <> [] ->
  let j := Z.to_nat (floor_mul u (len pool)) in
  exists v, pool !! j = Some v /\
            splice1 (floor_mul u (len pool)) pool = ([v], delete j pool).
Proof.
  intros Hne j.
  assert (Hlen : 0 < len pool).
  { unfold len. destruct pool; [done|]. simpl. lia. }
  pose proof (floor_mul_range u (len pool) Hlen) as [H0 H1].
  assert (Hj : (j < length pool)%nat) by (unfold j, len in *; lia).
  destruct (lookup_lt_is_Some_2 pool j Hj) as [v Hv].
  exists v. split; [exact Hv|].
  unfold splice1.
  destruct (Z.ltb_spec (floor_mul u (len pool)) 0) as [?|_]; [lia|].
  rewrite Z.min_l by lia. fold j.
  f_equal.
  rewrite (drop_S _ _ _ Hv). reflexivity.
Qed.

Section DrawLoop.

(** The loop leaves the flags of the world alone and consumes one draw
    per iteration; what it pushes is what [pool_draws] lists. *)
Lemma draw_impostors_spec (count : nat) :
  forall (pool : list Z) (acc : list (option Z)) (w : World),
    (count <= length pool)%nat ->
    let r := draw_impostors count pool acc w in
    fst r = acc ++ map Some (pool_draws count pool (random_source w)) /\
    (forall i, random_source (snd r) i = random_source w (count + i)%nat) /\
    can_vibrate (snd r) = can_vibrate w /\
    effects (snd r) = effects w.
Proof.
  induction count as [|count IH]; intros pool acc w Hc.
  - simpl. rewrite app_nil_r. done.
  - assert (Hne : pool <> []) by (destruct pool; [simpl in Hc; lia|done]).
    destruct (splice1_at_draw (random_source w 0%nat) pool Hne) as (v & Hv & Hsp).
    cbn [draw_impostors pool_draws]. io_unfold. cbn [random_source].
    rewrite Hsp, Hv. cbn [lookup list_lookup].
    set (w' := mk_world _ _ _).
    assert (Hc' : (count <= length (delete (Z.to_nat (floor_mul (random_source w 0%nat) (len pool))) pool))%nat).
    { rewrite length_delete by eauto. lia. }
    destruct (IH _ (acc ++ [Some v]) w' Hc') as (H1 & H2 & H3 & H4).
    repeat split.
    + rewrite H1. rewrite <- app_assoc. reflexivity.
    + intros i. rewrite H2. reflexivity.
    + rewrite H3. reflexivity.
    + rewrite H4. reflexivity.
Qed.

(** Drawing without replacement: as many positions as asked for, all
    from the pool, none twice. *)
Lemma pool_draws_spec (k : nat) :
  forall (pool : list Z) (src : RandomSource),
    (k <= length pool)%nat -> NoDup pool ->
    length (pool_draws k pool src) = k /\
    NoDup (pool_draws k pool src) /\
    (forall v, v ∈ pool_draws k pool src -> v ∈ pool).
Proof.
  induction k as [|k IH]; intros pool src Hk Hnd.
  - simpl. split; [done|]. split; [constructor|]. intros v Hv. inversion Hv.
  - assert (Hne : pool <> []) by (destruct pool; [simpl in Hk; lia|done]).
    destruct (splice1_at_draw (src 0%nat) pool Hne) as (v & Hv & _).
    cbn [pool_draws]. rewrite Hv.
    set (j := Z.to_nat (floor_mul (src 0%nat) (len pool))) in *.
    pose proof (delete_Permutation pool j v Hv) as Hperm.
    assert (Hnd' : NoDup (v :: delete j pool)) by (rewrite <- Hperm; done).
    apply NoDup_cons in Hnd' as [Hnotin Hnd'].
    assert (Hk' : (k <= length (delete j pool))%nat).
    { rewrite length_delete by eauto. lia. }
    destruct (IH (delete j pool) (λ i, src (S i)) Hk' Hnd') as (H1 & H2 & H3).
    split; [simpl; lia|]. split.
    + apply NoDup_cons. split; [|done]. intros Hin. apply Hnotin, H3, Hin.
    + intros v' Hin. apply elem_of_cons in Hin as [->|Hin].
      * eapply list_elem_of_lookup_2; eauto.
      * eapply list_elem_of_delete_inv, H3, Hin.
Qed.

End DrawLoop.

(* ===================================================================== *)
(** ** Reading the result of an [IO] computation                           *)
(* ===================================================================== *)

Section IOFacts.

Context {A B : Type}.

Lemma fst_bind (m : IO A) (f : A -> IO B) (w : World) :
  fst ((m ≫= f) w) = fst (f (fst (m w)) (snd (m w))).
Proof. unfold mbind, IO_bind. destruct (m w); reflexivity. Qed.

Lemma snd_bind (m : IO A) (f : A -> IO B) (w : World) :
  snd ((m ≫= f) w) = snd (f (fst (m w)) (snd (m w))).
Proof. unfold mbind, IO_bind. destruct (m w); reflexivity. Qed.

Lemma run_ret (a : A) (w : World) : (mret a : IO A) w = (a, w).
Proof. reflexivity. Qed.

End IOFacts.

Lemma count_confetti_app (l1 l2 : list Effect) :
  count_confetti (l1 ++ l2) = (count_confetti l1 + count_confetti l2)%nat.
Proof. unfold count_confetti. rewrite filter_app, length_app. reflexivity. Qed.

Ltac io_run :=
  repeat first [ rewrite fst_bind | rewrite snd_bind | rewrite run_ret ];
  cbn [fst snd].

(* ===================================================================== *)
(** ** Round start: what [startGame] stores                                *)
(* ===================================================================== *)

Section StartGame.

Variable WORDS : list string.

(** The fields [startGame] sets without looking at the draws. *)
Lemma startGame_fields (s : AppState) (w : World) :
  let s' := fst (startGame WORDS s w) in
  gameState s' = playing /\ currentPlayerIndex s' = 0 /\
  isRevealed s' = false /\ isPressed s' = false /\
  players s' = players s /\ gameMode s' = gameMode s /\
  round s' = (if decide (gameState s = finished) then round s + 1 else round s).
Proof.
  unfold startGame. io_run.
  destruct (decide (gameState s = finished)); cbn; done.
Qed.

Lemma startGame_classic (s : AppState) (w : World) :
  gameMode s = classic ->
  let s' := fst (startGame WORDS s w) in
  impostorIndices s' = [Some (floor_mul (random_source w 0%nat) (len (players s)))] /\
  currentWord s' = index WORDS (floor_mul (random_source w 1%nat) (len WORDS)).
Proof.
  intros Hm. unfold startGame. rewrite Hm. io_run.
  destruct (decide (gameState s = finished)); cbn; done.
Qed.

Lemma startGame_uncertainty (s : AppState) (w : World) :
  gameMode s = uncertainty ->
  3 <= len (players s) ->
  let n := len (players s) in
  let k := Z.to_nat (floor_mul (random_source w 0%nat) (n - 1) + 1) in
  let s' := fst (startGame WORDS s w) in
  impostorIndices s' =
    map Some (pool_draws k (seqZ 0 n) (skip 1 (random_source w))) /\
  currentWord s' = index WORDS (floor_mul (random_source w (S k)) (len WORDS)).
Proof.
  intros Hm Hn n k. unfold startGame. rewrite Hm. io_run.
  unfold Math_random. cbn [fst snd random_source].
  fold n. fold k.
  set (w1 := mk_world (λ i, random_source w (S i)) _ _).
  pose proof (floor_mul_range (random_source w 0%nat) (n - 1) ltac:(lia)) as Hk.
  assert (Hc : (k <= length (seqZ 0 n))%nat).
  { rewrite length_seqZ. unfold k. lia. }
  pose proof (draw_impostors_spec k (seqZ 0 n) [] w1 Hc) as (H1 & H2 & H3 & H4).
  destruct (decide (gameState s = finished)); cbn;
    rewrite H1, H2; cbn; rewrite Nat.add_0_r; done.
Qed.

End StartGame.

(** The loop draws once per iteration whatever the pool holds, and does
    nothing else to the world. *)
Lemma draw_impostors_world (count : nat) :
  forall (pool : list Z) (acc : list (option Z)) (w : World),
    (forall i : nat,
       random_source (snd (draw_impostors count pool acc w)) i =
       random_source w (count + i)%nat) /\
    can_vibrate (snd (draw_impostors count pool acc w)) = can_vibrate w /\
    effects (snd (draw_impostors count pool acc w)) = effects w.
Proof.
induction count as [|count IH]; intros pool acc w; [done|].
cbn [draw_impostors]. rewrite snd_bind.
destruct (splice1 _ pool) as [removed rest].
destruct (IH rest (acc ++ [removed !! 0%nat]) (snd (Math_random w))) as (H1 & H2 & H3).
split; [|split].
- intros i. rewrite H1. reflexivity.
- rewrite H2. reflexivity.
- rewrite H3. reflexivity.
Qed.

(** The world [startGame] leaves: the draws it consumed are gone, and the
    only effect is the haptic pulse. *)
Lemma startGame_effects (WORDS : list string) (s : AppState) (w : World) :
  effects (snd (startGame WORDS s w)) =
  effects w ++ (if can_vibrate w then [Vibrate 50] else []).
Proof.
unfold startGame.
destruct (gameMode s); io_run; unfold vibrate, emit, Math_random;
  cbn [fst snd can_vibrate effects random_source].
- destruct (can_vibrate w); cbn; [reflexivity|]. rewrite app_nil_r. reflexivity.
- match goal with
  | |- context [draw_impostors ?k ?pool ?acc ?w1] =>
      destruct (draw_impostors_world k pool acc w1) as (_ & Hv & He)
  end.
  rewrite Hv, He. cbn [can_vibrate effects].
  destruct (can_vibrate w); cbn; [reflexivity|]. rewrite app_nil_r. reflexivity.
Qed.

Lemma startGame_word (WORDS : list string) (s : AppState) (w : World) :
  currentWord (fst (startGame WORDS s w)) =
  index WORDS (floor_mul (random_source w (draws_before_word s w)) (len WORDS)).
Proof.
unfold startGame, draws_before_word. io_run.
destruct (gameMode s); io_run; unfold Math_random; cbn [fst snd random_source].
- destruct (decide (gameState s = finished)); reflexivity.
- rewrite (proj1 (draw_impostors_world _ _ _ _)). cbn [random_source].
  rewrite Nat.add_0_r.
  destruct (decide (gameState s = finished)); reflexivity.
Qed.

Lemma index_in_range {A} (l : list A) (i : Z) :
  0 <= i < len l -> exists v, index l i = Some v /\ v ∈ l.
Proof.
intros [H0 H1]. unfold index.
destruct (Z.ltb_spec i 0) as [?|_]; [lia|].
destruct (lookup_lt_is_Some_2 l (Z.to_nat i)) as [v Hv]; [unfold len in H1; lia|].
exists v. split; [exact Hv|]. eapply list_elem_of_lookup_2, Hv.
Qed.

(* ===================================================================== *)
(** ** Assignment claims                                                   *)
(* ===================================================================== *)

(** C1. For every roster of n >= 3 players, [startGame] in classic mode
    stores exactly one impostor position, and that position lies in
    [0, n); it is [Math.floor(Math.random() * n)] for the first draw u,
    which then lies in [i/n, (i+1)/n) up to one grid step: each position
    has the same share of the draws. *)
Theorem classic_single_impostor (WORDS : list string) (s : AppState) (w : World) :
  gameMode s = classic ->
  3 <= len (players s) ->
  let n := len (players s) in
  let u := random_source w 0%nat in
  exists i : Z,
    impostorIndices (fst (startGame WORDS s w)) = [Some i] /\
    0 <= i < n /\
    i = floor_mul u n /\
    (n <= scale -> i * scale - n <= mant u * n < (i + 1) * scale).
Proof.
intros Hm Hn n u.
destruct (startGame_classic WORDS s w Hm) as [Hi _].
exists (floor_mul u n).
split; [exact Hi|]. split; [apply floor_mul_range; lia|]. split; [reflexivity|].
intros Hs. apply (floor_mul_preimage u n (floor_mul u n)); [lia|reflexivity].
Qed.

Lemma classic_single_impostor_witness :
  gameMode initial_state = classic /\
  3 <= len (players initial_state) /\
  impostorIndices
    (fst (startGame ["SUN"; "MOON"] initial_state (world_of [draw_half; draw_max])))
    = [Some 1] /\
  exists i : Z,
    impostorIndices
      (fst (startGame ["SUN"; "MOON"] initial_state (world_of [draw_half; draw_max])))
      = [Some i] /\
    0 <= i < len (players initial_state) /\
    i = floor_mul (random_source (world_of [draw_half; draw_max]) 0%nat)
          (len (players initial_state)) /\
    (len (players initial_state) <= scale ->
     i * scale - len (players initial_state)
     <= mant (random_source (world_of [draw_half; draw_max]) 0%nat)
        * len (players initial_state)
     < (i + 1) * scale).
Proof.
split; [reflexivity|]. split; [vm_compute; discriminate|].
split; [vm_compute; reflexivity|].
apply (classic_single_impostor ["SUN"; "MOON"] initial_state
         (world_of [draw_half; draw_max])).
- reflexivity.
- vm_compute; discriminate.
Defined.

(** C2. For every roster of n >= 3 players, [startGame] in uncertainty mode
    stores a list P of impostor positions with 1 <= |P| <= n - 1, pairwise
    distinct and each in [0, n).  The count is k = floor(u * (n - 1)) + 1
    for the first draw u, which then lies in [(k-1)/(n-1), k/(n-1)) up to
    one grid step (each count has the same share of the draws), and P
    lists the elements removed one at a time from a pool that starts as
    [0; ...; n - 1], each at the position floor(u' * |pool|) for the next
    draw u'. *)
Theorem uncertainty_impostor_set (WORDS : list string) (s : AppState) (w : World) :
  gameMode s = uncertainty ->
  3 <= len (players s) ->
  let n := len (players s) in
  let k := floor_mul (random_source w 0%nat) (n - 1) + 1 in
  exists P : list Z,
    impostorIndices (fst (startGame WORDS s w)) = map Some P /\
    1 <= k <= n - 1 /\
    len P = k /\
    NoDup P /\
    (forall i, i ∈ P -> 0 <= i < n) /\
    P = pool_draws (Z.to_nat k) (seqZ 0 n) (skip 1 (random_source w)) /\
    (n - 1 <= scale ->
     (k - 1) * scale - (n - 1) <= mant (random_source w 0%nat) * (n - 1) < k * scale).
Proof.
intros Hm Hn n k.
destruct (startGame_uncertainty WORDS s w Hm Hn) as [Hi _].
fold n in Hi. fold k in Hi.
pose proof (floor_mul_range (random_source w 0%nat) (n - 1) ltac:(lia)) as Hk.
assert (Hc : (Z.to_nat k <= length (seqZ 0 n))%nat).
{ rewrite length_seqZ. unfold k. lia. }
destruct (pool_draws_spec (Z.to_nat k) (seqZ 0 n) (skip 1 (random_source w)) Hc
            (NoDup_seqZ 0 n)) as (Hlen & Hnd & Hsub).
exists (pool_draws (Z.to_nat k) (seqZ 0 n) (skip 1 (random_source w))).
split; [exact Hi|]. split; [unfold k; lia|].
split; [unfold len; rewrite Hlen; unfold k; lia|].
split; [exact Hnd|].
split; [intros i Hin; apply Hsub, elem_of_seqZ in Hin; lia|].
split; [reflexivity|].
intros Hs.
pose proof (proj1 (floor_mul_preimage (random_source w 0%nat) (n - 1) (k - 1)
                     ltac:(lia)) ltac:(unfold k; lia)) as Hpre.
lia.
Qed.

Lemma uncertainty_impostor_set_witness :
  let s := setGameMode uncertainty initial_state in
  let w := world_of [draw_max; draw_half; draw_max; draw_zero] in
  gameMode s = uncertainty /\
  3 <= len (players s) /\
  impostorIndices (fst (startGame ["SUN"; "MOON"] s w)) = [Some 1; Some 2] /\
  exists P : list Z,
    impostorIndices (fst (startGame ["SUN"; "MOON"] s w)) = map Some P /\
    1 <= floor_mul (random_source w 0%nat) (len (players s) - 1) + 1
      <= len (players s) - 1 /\
    len P = floor_mul (random_source w 0%nat) (len (players s) - 1) + 1 /\
    NoDup P /\
    (forall i, i ∈ P -> 0 <= i < len (players s)) /\
    P = pool_draws
          (Z.to_nat (floor_mul (random_source w 0%nat) (len (players s) - 1) + 1))
          (seqZ 0 (len (players s))) (skip 1 (random_source w)) /\
    (len (players s) - 1 <= scale ->
     (floor_mul (random_source w 0%nat) (len (players s) - 1) + 1 - 1) * scale
       - (len (players s) - 1)
     <= mant (random_source w 0%nat) * (len (players s) - 1)
     < (floor_mul (random_source w 0%nat) (len (players s) - 1) + 1) * scale).
Proof.
intros s w.
split; [reflexivity|]. split; [vm_compute; discriminate|].
split; [vm_compute; reflexivity|].
apply (uncertainty_impostor_set ["SUN"; "MOON"] s w).
- reflexivity.
- vm_compute; discriminate.
Defined.

(** C10. For every non-empty word list and every round start, in either
    mode, the word [startGame] stores is an element of the list: the one
    at index i = floor(u * length) for the draw u that follows the draws of
    the assignment, which then lies in [i/length, (i+1)/length) up to one
    grid step. *)
Theorem word_from_list (WORDS : list string) (s : AppState) (w : World) :
  WORDS <> [] ->
  let n := len WORDS in
  let u := random_source w (draws_before_word s w) in
  exists (i : Z) (word : string),
    currentWord (fst (startGame WORDS s w)) = Some word /\
    word ∈ WORDS /\
    0 <= i < n /\
    WORDS !! Z.to_nat i = Some word /\
    i = floor_mul u n /\
    (n <= scale -> i * scale - n <= mant u * n < (i + 1) * scale).
Proof.
intros Hne n u.
assert (Hlen : 0 < n).
{ unfold n, len. destruct WORDS; [done|]. simpl. lia. }
pose proof (floor_mul_range u n Hlen) as Hr.
destruct (index_in_range WORDS _ Hr) as (word & Hw & Hin).
exists (floor_mul u n), word. rewrite startGame_word. fold u. fold n.
split; [exact Hw|]. split; [exact Hin|]. split; [exact Hr|].
split.
- unfold index in Hw.
  destruct (Z.ltb_spec (floor_mul u n) 0) as [?|_]; [lia|exact Hw].
- split; [reflexivity|].
  intros Hs. apply (floor_mul_preimage u n (floor_mul u n)); [lia|reflexivity].
Qed.

Lemma word_from_list_witness :
  let s := setGameMode uncertainty initial_state in
  let w := world_of [draw_max; draw_half; draw_max; draw_half] in
  let WORDS := ["SUN"; "MOON"; "STAR"] in
  WORDS <> [] /\
  draws_before_word s w = 3%nat /\
  currentWord (fst (startGame WORDS s w)) = Some "MOON" /\
  exists (i : Z) (word : string),
    currentWord (fst (startGame WORDS s w)) = Some word /\
    word ∈ WORDS /\
    0 <= i < len WORDS /\
    WORDS !! Z.to_nat i = Some word /\
    i = floor_mul (random_source w (draws_before_word s w)) (len WORDS) /\
    (len WORDS <= scale ->
     i * scale - len WORDS
     <= mant (random_source w (draws_before_word s w)) * len WORDS
     < (i + 1) * scale).
Proof.
intros s w WORDS.
split; [discriminate|]. split; [vm_compute; reflexivity|].
split; [vm_compute; reflexivity|].
apply (word_from_list WORDS s w). discriminate.
Defined.

(* ===================================================================== *)
(** ** Turn traversal                                                      *)
(* ===================================================================== *)

Lemma nextPlayer_intermediate (s : AppState) (w : World) :
  currentPlayerIndex s < len (players s) - 1 ->
  nextPlayer s w =
  (setIsPressed false
     (setIsRevealed false (setCurrentPlayerIndex (currentPlayerIndex s + 1) s)), w).
Proof.
intros H. unfold nextPlayer.
destruct (Z.ltb_spec (currentPlayerIndex s) (len (players s) - 1)); [reflexivity|lia].
Qed.

Lemma nextPlayer_last (s : AppState) (w : World) :
  len (players s) - 1 <= currentPlayerIndex s ->
  nextPlayer s w =
  (setGameState finished s,
   mk_world (random_source w) (can_vibrate w) (effects w ++ [Confetti])).
Proof.
intros H. unfold nextPlayer.
destruct (Z.ltb_spec (currentPlayerIndex s) (len (players s) - 1)); [lia|reflexivity].
Qed.

Lemma advance_add (j k : nat) (s : AppState) (w : World) :
  advance (j + k) s w = advance k (fst (advance j s w)) (snd (advance j s w)).
Proof.
revert s w. induction j as [|j IH]; intros s w; [reflexivity|].
cbn [Nat.add advance]. unfold mbind, IO_bind.
destruct (nextPlayer s w) as [s1 w1]. apply IH.
Qed.

(** While the pointer stays below the last seat, advancing only moves the
    pointer and hides the card; the world is not touched. *)
Lemma advance_intermediate (j : nat) :
  forall (s : AppState) (w : World),
    currentPlayerIndex s + Z.of_nat j <= len (players s) - 1 ->
    snd (advance j s w) = w /\
    gameState (fst (advance j s w)) = gameState s /\
    players (fst (advance j s w)) = players s /\
    currentPlayerIndex (fst (advance j s w)) = currentPlayerIndex s + Z.of_nat j /\
    ((0 < j)%nat ->
     isRevealed (fst (advance j s w)) = false /\
     isPressed (fst (advance j s w)) = false).
Proof.
induction j as [|j IH]; intros s w Hj.
- cbn. repeat split; try lia.
- cbn [advance]. unfold mbind, IO_bind.
  rewrite nextPlayer_intermediate by lia.
  set (s1 := setIsPressed false _).
  destruct (IH s1 w) as (H1 & H2 & H3 & H4 & H5); [subst s1; cbn; lia|].
  split; [exact H1|]. split; [rewrite H2; reflexivity|].
  split; [rewrite H3; reflexivity|].
  split; [rewrite H4; subst s1; cbn; lia|].
  intros _. destruct j as [|j]; [cbn; done|]. apply H5. lia.
Qed.

(** C3. Starting a round with n players and calling [nextPlayer] n - 1
    times leaves the phase Playing with the pointer on n - 1, the card
    hidden and no confetti fired; the next call moves the phase to
    Finished and fires the confetti, so that the round, from its start to
    its end, fires it exactly once.  Any call below the last seat
    increments the pointer and clears revealed and pressed without any
    effect; any call on the last seat finishes the round with one confetti. *)
Theorem turn_traversal (WORDS : list string) (s0 : AppState) (w0 : World) :
  3 <= len (players s0) ->
  let n := length (players s0) in
  let s := fst (startGame WORDS s0 w0) in
  let w := snd (startGame WORDS s0 w0) in
  (forall j : nat, (j <= n - 1)%nat ->
     gameState (fst (advance j s w)) = playing /\
     currentPlayerIndex (fst (advance j s w)) = Z.of_nat j /\
     isRevealed (fst (advance j s w)) = false /\
     isPressed (fst (advance j s w)) = false /\
     effects (snd (advance j s w)) = effects w /\
     count_confetti (effects (snd (advance j s w))) = count_confetti (effects w0)) /\
  gameState (fst (advance n s w)) = finished /\
  effects (snd (advance n s w)) = effects w ++ [Confetti] /\
  count_confetti (effects (snd (advance n s w))) = S (count_confetti (effects w0)) /\
  (forall (t : AppState) (v : World),
     currentPlayerIndex t < len (players t) - 1 ->
     nextPlayer t v =
     (setIsPressed false
        (setIsRevealed false (setCurrentPlayerIndex (currentPlayerIndex t + 1) t)), v)) /\
  (forall (t : AppState) (v : World),
     currentPlayerIndex t = len (players t) - 1 ->
     gameState (fst (nextPlayer t v)) = finished /\
     effects (snd (nextPlayer t v)) = effects v ++ [Confetti]).
Proof.
intros Hn n s w.
destruct (startGame_fields WORDS s0 w0) as (Hg & Hi & Hr & Hp & Hpl & _).
fold s in Hg, Hi, Hr, Hp, Hpl.
assert (Hlen : len (players s) = Z.of_nat n) by (rewrite Hpl; reflexivity).
assert (Hn' : (3 <= n)%nat) by (unfold len in Hn; fold n in Hn; lia).
assert (Hmid : forall j : nat, (j <= n - 1)%nat ->
          gameState (fst (advance j s w)) = playing /\
          currentPlayerIndex (fst (advance j s w)) = Z.of_nat j /\
          isRevealed (fst (advance j s w)) = false /\
          isPressed (fst (advance j s w)) = false /\
          snd (advance j s w) = w /\
          players (fst (advance j s w)) = players s).
{ intros j Hj.
  destruct (advance_intermediate j s w) as (H1 & H2 & H3 & H4 & H5); [lia|].
  split; [congruence|]. split; [lia|].
  destruct j as [|j]; [cbn; done|].
  destruct H5 as [H5 H6]; [lia|]. done. }
assert (Hw : count_confetti (effects w) = count_confetti (effects w0)).
{ subst w. rewrite startGame_effects, count_confetti_app.
  destruct (can_vibrate w0);
    [change (count_confetti [Vibrate 50]) with 0%nat
    |change (count_confetti []) with 0%nat]; lia. }
assert (Hend : effects (snd (advance n s w)) = effects w ++ [Confetti]).
{ replace n with ((n - 1) + 1)%nat by lia. rewrite advance_add.
  destruct (Hmid (n - 1)%nat) as (H1 & H2 & H3 & H4 & H5 & H6); [lia|].
  cbn [advance]. rewrite snd_bind, run_ret. cbn [snd].
  rewrite nextPlayer_last by (rewrite H6, Hlen, H2; lia).
  cbn. rewrite H5. reflexivity. }
split; [|split; [|split; [|split; [|split]]]].
- intros j Hj. destruct (Hmid j Hj) as (H1 & H2 & H3 & H4 & H5 & _).
  rewrite H5. done.
- replace n with ((n - 1) + 1)%nat by lia. rewrite advance_add.
  destruct (Hmid (n - 1)%nat) as (H1 & H2 & H3 & H4 & H5 & H6); [lia|].
  cbn [advance]. rewrite fst_bind, run_ret. cbn [fst].
  rewrite nextPlayer_last by (rewrite H6, Hlen, H2; lia). reflexivity.
- exact Hend.
- rewrite Hend, count_confetti_app, Hw.
  change (count_confetti [Confetti]) with 1%nat. lia.
- intros t v Ht. apply nextPlayer_intermediate, Ht.
- intros t v Ht. rewrite nextPlayer_last by lia. done.
Qed.

Lemma turn_traversal_witness :
  let w0 := world_of [draw_half; draw_max] in
  let s := fst (startGame ["SUN"] initial_state w0) in
  let w := snd (startGame ["SUN"] initial_state w0) in
  3 <= len (players initial_state) /\
  (gameState (fst (advance 2 s w)) = playing /\
   currentPlayerIndex (fst (advance 2 s w)) = 2 /\
   effects (snd (advance 2 s w)) = [Vibrate 50]) /\
  gameState (fst (advance 3 s w)) = finished /\
  effects (snd (advance 3 s w)) = [Vibrate 50; Confetti].
Proof.
intros w0 s w.
pose proof (turn_traversal ["SUN"] initial_state w0 ltac:(vm_compute; discriminate))
  as (Hmid & Hfin & Heff & _).
split; [vm_compute; discriminate|].
split; [|split; [exact Hfin|exact Heff]].
destruct (Hmid 2%nat ltac:(cbn; lia)) as (H1 & H2 & _ & _ & H5 & _).
split; [exact H1|]. split; [exact H2|exact H5].
Defined.

(* ===================================================================== *)
(** ** Round counter and reset                                             *)
(* ===================================================================== *)

(** C7. The round counter starts at 1; [startGame] from Finished adds
    exactly one, [startGame] from Setup leaves it as it is (so it is 1
    after the first start), and [resetGame] does not touch it. *)
Theorem round_counter (WORDS : list string) :
  round initial_state = 1 /\
  (forall (s : AppState) (w : World),
     gameState s = finished -> round (fst (startGame WORDS s w)) = round s + 1) /\
  (forall (s : AppState) (w : World),
     gameState s = setup -> round (fst (startGame WORDS s w)) = round s) /\
  (forall w : World, round (fst (startGame WORDS initial_state w)) = 1) /\
  (forall s : AppState, round (resetGame s) = round s).
Proof.
split; [reflexivity|].
split; [|split; [|split]].
- intros s w Hf.
  destruct (startGame_fields WORDS s w) as (_ & _ & _ & _ & _ & _ & Hr).
  rewrite Hr. destruct (decide (gameState s = finished)); [reflexivity|contradiction].
- intros s w Hs.
  destruct (startGame_fields WORDS s w) as (_ & _ & _ & _ & _ & _ & Hr).
  rewrite Hr. destruct (decide (gameState s = finished)); [congruence|reflexivity].
- intros w.
  destruct (startGame_fields WORDS initial_state w) as (_ & _ & _ & _ & _ & _ & Hr).
  rewrite Hr. reflexivity.
- intros s. reflexivity.
Qed.

(** C9, as stated, fails: [resetGame] keeps the pressed flag it finds. *)
Lemma reset_clears_flags_counterexample :
  gameState held_until_finished = finished /\
  isPressed (resetGame held_until_finished) = true /\
  ~ (gameState (resetGame held_until_finished) = setup /\
     isRevealed (resetGame held_until_finished) = false /\
     isPressed (resetGame held_until_finished) = false /\
     players (resetGame held_until_finished) = default_players).
Proof.
split; [vm_compute; reflexivity|].
split; [vm_compute; reflexivity|].
intros (_ & _ & Hp & _). vm_compute in Hp. discriminate Hp.
Qed.

(** C9, amended. From every state [resetGame] moves the phase to Setup and
    replaces the roster by the three default players; it leaves revealed,
    pressed, the round counter, the pointer and the assignment as they
    were.  The two flags are cleared by the next [startGame]. *)
Theorem reset_to_setup (s : AppState) :
  gameState (resetGame s) = setup /\
  players (resetGame s) = default_players /\
  length (players (resetGame s)) = 3%nat /\
  isRevealed (resetGame s) = isRevealed s /\
  isPressed (resetGame s) = isPressed s /\
  round (resetGame s) = round s /\
  currentPlayerIndex (resetGame s) = currentPlayerIndex s /\
  impostorIndices (resetGame s) = impostorIndices s /\
  currentWord (resetGame s) = currentWord s /\
  (forall (WORDS : list string) (w : World),
     isRevealed (fst (startGame WORDS (resetGame s) w)) = false /\
     isPressed (fst (startGame WORDS (resetGame s) w)) = false).
Proof.
repeat (split; [reflexivity|]).
intros WORDS w.
destruct (startGame_fields WORDS (resetGame s) w) as (_ & _ & Hr & Hp & _).
split; [exact Hr|exact Hp].
Qed.

(* ===================================================================== *)
(** ** Drag thresholds                                                     *)
(* ===================================================================== *)

Lemma Number_ltb_lt (a b : Number) : Number_ltb a b = true <-> Number_lt a b.
Proof.
split.
- destruct a as [| |qa|], b as [| |qb|]; cbn; intros Hb;
    try discriminate Hb; try (constructor; fail).
  constructor. apply negb_true_iff in Hb.
  destruct (Qlt_le_dec qa qb) as [Hlt|Hle]; [exact Hlt|].
  apply Qle_bool_iff in Hle. congruence.
- intros Hlt. destruct Hlt as [qa qb Hlt| | |]; cbn; try reflexivity.
  apply negb_true_iff. destruct (Qle_bool qb qa) eqn:Hb; [|reflexivity].
  apply Qle_bool_iff in Hb. exfalso. apply (Qlt_not_le _ _ Hlt Hb).
Qed.

(** C5. Whatever revealed was, [handleDragEnd] sets it to true exactly when
    offsetY < -50 or velocityY < -500; otherwise it sets it to false exactly
    when offsetY > 30 or velocityY > 500; in every other case, the boundary
    values -50, 30, -500 and 500 and NaN among them, revealed and the whole
    state are left as they were.  No other part of the state changes in
    any case. *)
Theorem drag_end_thresholds (info : PanInfo) (s : AppState) (w : World) :
  let oy := y (offset info) in
  let vy := y (velocity info) in
  let up := Number_lt oy (num (-50)) \/ Number_lt vy (num (-500)) in
  let down := Number_lt (num 30) oy \/ Number_lt (num 500) vy in
  let s' := fst (handleDragEnd info s w) in
  (up -> isRevealed s' = true) /\
  (~ up -> down -> isRevealed s' = false) /\
  (~ up -> ~ down -> isRevealed s' = isRevealed s /\ s' = s) /\
  same_but_revealed s s' /\
  (forall b, In b [num (-50); num 30; NaN] ->
   forall c, In c [num (-500); num 500; NaN] ->
     isRevealed (fst (handleDragEnd (drag b c) s w)) = isRevealed s /\
     fst (handleDragEnd (drag b c) s w) = s).
Proof.
intros oy vy up down s'. subst s'. unfold handleDragEnd. fold oy. fold vy.
destruct (Number_ltb oy (num (-50))) eqn:H1;
  destruct (Number_ltb vy (num (-500))) eqn:H2;
  destruct (Number_ltb (num 30) oy) eqn:H3;
  destruct (Number_ltb (num 500) vy) eqn:H4;
  cbn [orb]; io_run;
  rewrite ?Number_ltb_lt in *;
  (split; [|split; [|split; [|split]]]);
  try (intros; reflexivity);
  try (intros; split; reflexivity);
  try (repeat split; reflexivity);
  try (intros Hup; exfalso; destruct Hup as [Hup|Hup];
       apply Number_ltb_lt in Hup; congruence);
  try (intros Hup; exfalso; apply Hup; unfold up; tauto);
  try (intros _ Hd; exfalso; destruct Hd as [Hd|Hd];
       apply Number_ltb_lt in Hd; congruence);
  try (intros _ Hd; exfalso; apply Hd; unfold down; tauto);
  try (intros b Hb c Hc; cbn in Hb, Hc;
       destruct Hb as [<-|[<-|[<-|[]]]]; destruct Hc as [<-|[<-|[<-|[]]]];
       split; reflexivity).
Qed.

(** A swipe of 60 upwards reveals a hidden card; a swipe of 40 downwards
    hides a revealed one. *)
Lemma drag_end_thresholds_witness :
  isRevealed initial_state = false /\
  isRevealed (fst (handleDragEnd drag_up initial_state (world_of []))) = true /\
  isRevealed revealed_state = true /\
  isRevealed (fst (handleDragEnd (drag (num 40) (num 0)) revealed_state (world_of [])))
  = false.
Proof.
split; [reflexivity|]. split.
- apply (proj1 (drag_end_thresholds drag_up initial_state (world_of []))).
  left. constructor. reflexivity.
- split; [reflexivity|].
  apply (proj1 (proj2 (drag_end_thresholds (drag (num 40) (num 0)) revealed_state
                         (world_of [])))).
  + intros [H|H]; inversion H as [a b Hlt| | |]; subst; discriminate Hlt.
  + left. constructor. reflexivity.
Defined.

(** The literal gestures of the specification's test list. *)
Example drag_end_literals :
  isRevealed (fst (handleDragEnd (drag (num (-60)) (num 0)) initial_state (world_of []))) = true /\
  isRevealed (fst (handleDragEnd (drag (num 0) (num (-600))) initial_state (world_of []))) = true /\
  isRevealed (fst (handleDragEnd (drag (num 40) (num 0)) revealed_state (world_of []))) = false /\
  fst (handleDragEnd (drag (num 10) (num 10)) revealed_state (world_of [])) = revealed_state /\
  fst (handleDragEnd (drag (num 10) (num 10)) initial_state (world_of [])) = initial_state /\
  isPressed (fst (onPointerDown revealed_state (world_of []))) = true /\
  isRevealed (fst (onPointerDown revealed_state (world_of []))) = true /\
  isPressed (onPointerUp (fst (onPointerDown initial_state (world_of [])))) = false /\
  isPressed (onPointerLeave (fst (onPointerDown initial_state (world_of [])))) = false.
Proof. repeat split; vm_compute; reflexivity. Qed.

(* ===================================================================== *)
(** ** Roster floor                                                        *)
(* ===================================================================== *)

Section RosterFacts.

Implicit Types (l : list Player) (i : string).

Lemma filter_absent l i :
  i ∉ id <$> l -> filter (λ p, id p ≠ i) l = l.
Proof.
induction l as [|p l IH]; intros Hi; [reflexivity|].
rewrite fmap_cons, not_elem_of_cons in Hi. destruct Hi as [Hp Hl].
rewrite filter_cons_True by congruence. f_equal. apply IH, Hl.
Qed.

(** With distinct identifiers the filter drops at most one player. *)
Lemma filter_drops_one l i :
  NoDup (id <$> l) -> (length l <= S (length (filter (λ p, id p ≠ i) l)))%nat.
Proof.
induction l as [|p l IH]; intros Hnd; [cbn; lia|].
rewrite fmap_cons in Hnd. apply NoDup_cons in Hnd as [Hp Hnd].
destruct (decide (id p = i)) as [Heq|Hne].
- rewrite filter_cons_False by (intros H; apply H, Heq).
  rewrite filter_absent by (rewrite <- Heq; exact Hp). cbn. lia.
- rewrite filter_cons_True by exact Hne. cbn. specialize (IH Hnd). lia.
Qed.

Lemma filter_keeps_distinct l i :
  NoDup (id <$> l) -> NoDup (id <$> filter (λ p, id p ≠ i) l).
Proof.
induction l as [|p l IH]; intros Hnd; [constructor|].
rewrite fmap_cons in Hnd. apply NoDup_cons in Hnd as [Hp Hnd].
rewrite filter_cons. destruct (decide (id p ≠ i)); [|apply IH, Hnd].
rewrite fmap_cons. apply NoDup_cons. split; [|apply IH, Hnd].
intros Hin. apply Hp.
apply list_elem_of_fmap in Hin as (q & Hq & Hin).
apply list_elem_of_filter in Hin as [_ Hin].
apply list_elem_of_fmap. exists q. split; [exact Hq|exact Hin].
Qed.

End RosterFacts.

Lemma setPlayers_same (s : AppState) : setPlayers (players s) s = s.
Proof. destruct s; reflexivity. Qed.

Lemma removePlayer_at_floor (i : string) (s : AppState) :
  len (players s) <= 3 -> removePlayer i s = s.
Proof.
intros H. unfold removePlayer.
destruct (Z.ltb_spec 3 (len (players s))); [lia|reflexivity].
Qed.

Lemma removePlayer_absent (i : string) (s : AppState) :
  i ∉ id <$> players s -> removePlayer i s = s.
Proof.
intros H. unfold removePlayer.
destruct (Z.ltb_spec 3 (len (players s))); [|reflexivity].
rewrite filter_absent by exact H. apply setPlayers_same.
Qed.

Lemma removePlayer_invariant (i : string) (s : AppState) :
  NoDup (id <$> players s) -> 3 <= len (players s) ->
  NoDup (id <$> players (removePlayer i s)) /\ 3 <= len (players (removePlayer i s)).
Proof.
intros Hnd Hlen. unfold removePlayer.
destruct (Z.ltb_spec 3 (len (players s))) as [Hgt|_]; [|done].
cbn [players setPlayers]. split; [apply filter_keeps_distinct, Hnd|].
pose proof (filter_drops_one (players s) i Hnd). unfold len in *. lia.
Qed.

Lemma remove_all_invariant (ids : list string) :
  forall s : AppState,
    NoDup (id <$> players s) -> 3 <= len (players s) ->
    NoDup (id <$> players (remove_all ids s)) /\ 3 <= len (players (remove_all ids s)).
Proof.
induction ids as [|i ids IH]; intros s Hnd Hlen; [done|].
cbn [remove_all foldl]. fold (remove_all ids (removePlayer i s)).
destruct (removePlayer_invariant i s Hnd Hlen) as [Hnd' Hlen'].
apply IH; assumption.
Qed.

(** C4, as stated, fails: the filter removes every player that carries the
    identifier, and identifiers are drawn, not checked. *)
Lemma roster_floor_counterexample :
  id <$> players twin_roster = ["2"; "3"; "i"; "i"] /\
  3 <= len (players twin_roster) /\
  len (players (remove_all ["i"] twin_roster)) = 2 /\
  ~ 3 <= len (players (remove_all ["i"] twin_roster)).
Proof.
split; [vm_compute; reflexivity|].
split; [vm_compute; discriminate|].
split; [vm_compute; reflexivity|].
vm_compute. intros H. apply H. reflexivity.
Qed.

(** C4, amended. For a roster of at least 3 players with pairwise distinct
    identifiers, after every prefix of every sequence of [removePlayer]
    calls the roster still has at least 3 players; a call on a roster of 3
    (or fewer) is a no-op, and so is a call with an identifier no player
    carries. *)
Theorem roster_floor (ids : list string) (s : AppState) :
  NoDup (id <$> players s) ->
  3 <= len (players s) ->
  (forall k : nat, 3 <= len (players (remove_all (take k ids) s))) /\
  3 <= len (players (remove_all ids s)) /\
  (forall (t : AppState) (i : string), len (players t) <= 3 -> removePlayer i t = t) /\
  (forall (t : AppState) (i : string), i ∉ id <$> players t -> removePlayer i t = t).
Proof.
intros Hnd Hlen.
split; [|split; [|split]].
- intros k. apply remove_all_invariant; assumption.
- apply remove_all_invariant; assumption.
- intros t i. apply removePlayer_at_floor.
- intros t i. apply removePlayer_absent.
Qed.

Lemma roster_floor_witness :
  NoDup (id <$> players five_players) /\
  3 <= len (players five_players) /\
  id <$> players (remove_all ["a"; "zz"; "1"; "2"; "3"] five_players) = ["2"; "3"; "b"] /\
  3 <= len (players (remove_all ["a"; "zz"; "1"; "2"; "3"] five_players)).
Proof.
assert (Hnd : NoDup (id <$> players five_players)).
{ apply (bool_decide_unpack _). vm_compute. exact I. }
split; [exact Hnd|]. split; [vm_compute; discriminate|].
split; [vm_compute; reflexivity|].
apply (roster_floor ["a"; "zz"; "1"; "2"; "3"] five_players Hnd).
vm_compute; discriminate.
Defined.

(* ===================================================================== *)
(** ** Shuffle: the roster is only reordered                               *)
(* ===================================================================== *)

Section Reordering.

Context {A : Type}.
Implicit Types (l items : list A).

Lemma insert_Permutation_cons l (j : nat) (v x : A) :
  l !! j = Some v -> v :: <[j := x]> l ≡ₚ x :: l.
Proof.
revert j. induction l as [|y l IH]; intros [|j] Hj; simplify_eq/=.
- apply perm_swap.
- rewrite perm_swap. rewrite (IH j Hj). apply perm_swap.
Qed.

Lemma exchange_Permutation (a b : nat) items : exchange a b items ≡ₚ items.
Proof.
unfold exchange.
destruct (items !! a) as [va|] eqn:Ha; [|reflexivity].
destruct (items !! b) as [vb|] eqn:Hb; [|reflexivity].
revert a b Ha Hb. induction items as [|y items IH]; intros [|a] [|b] Ha Hb;
  simplify_eq/=.
- reflexivity.
- apply insert_Permutation_cons, Hb.
- apply insert_Permutation_cons, Ha.
- f_equiv. apply IH; assumption.
Qed.

Lemma run_plan_Permutation (comparefn : option A -> option A -> IO Z) (p : SortPlan) :
  forall items (w : World), fst (run_plan comparefn p items w) ≡ₚ items.
Proof.
induction p as [|a b next IH|a b neg IHn zero IHz pos IHp]; intros items w.
- reflexivity.
- cbn [run_plan]. rewrite IH. apply exchange_Permutation.
- cbn [run_plan]. rewrite fst_bind.
  destruct (_ <? 0); [apply IHn|]. destruct (_ =? 0); [apply IHz|apply IHp].
Qed.

End Reordering.

(** With the shuffle's comparator, [run_plan] takes at a comparison the
    branch that [hits] follows for the value of the next draw. *)
Lemma random_comparator_branch {A} (a b : nat) (neg zero pos : SortPlan)
    (items : list A) (w : World) :
  let m := mant (random_source w 0%nat) in
  run_plan random_comparator (Compare a b neg zero pos) items w =
  run_plan random_comparator
    (if m - 2 ^ 52 <? 0 then neg else if m - 2 ^ 52 =? 0 then zero else pos)
    items (snd (Math_random w)).
Proof.
intros m. cbn [run_plan]. unfold random_comparator, mbind, mret, IO_bind, IO_ret.
cbn [Math_random fst snd]. unfold sub_half. change (2 ^ (prec - 1)) with (2 ^ 52).
fold m. unfold Math_random. cbn [snd].
destruct (m - 2 ^ 52 <? 0); [reflexivity|].
destruct (m - 2 ^ 52 =? 0); reflexivity.
Qed.

Lemma sign_of_draw_sub_half (u : unit_double) :
  (sign_of_draw u <? 0) = (mant u - 2 ^ 52 <? 0) /\
  (sign_of_draw u =? 0) = (mant u - 2 ^ 52 =? 0).
Proof.
unfold sign_of_draw.
destruct (Z.ltb_spec (mant u) (2 ^ 52)); [|destruct (Z.eqb_spec (mant u) (2 ^ 52))];
  (split; [destruct (Z.ltb_spec (mant u - 2 ^ 52) 0)
          |destruct (Z.eqb_spec (mant u - 2 ^ 52) 0)]);
  try reflexivity; lia.
Qed.

(** Under the shuffle's comparator a plan ends where [follow] ends on the
    signs of the draws; it consumes one draw per comparator call and does
    nothing else to the world. *)
Lemma run_plan_follow {A} (p : SortPlan) :
  forall (items : list A) (w : World),
    let r := follow p (λ i, sign_of_draw (random_source w i)) items in
    let out := run_plan random_comparator p items w in
    fst out = fst r /\
    (forall i : nat, random_source (snd out) i = random_source w (snd r + i)%nat) /\
    can_vibrate (snd out) = can_vibrate w /\
    effects (snd out) = effects w /\
    (snd r <= plan_depth p)%nat.
Proof.
induction p as [|a b next IH|a b neg IHn zero IHz pos IHp]; intros items w.
- cbn. repeat split; lia.
- cbn [run_plan follow plan_depth]. apply IH.
- cbn zeta. rewrite random_comparator_branch.
  cbn [follow plan_depth].
  destruct (sign_of_draw_sub_half (random_source w 0%nat)) as [-> ->].
  set (w1 := snd (Math_random w)).
  change (λ i : nat, sign_of_draw (random_source w (S i)))
    with (λ i : nat, sign_of_draw (random_source w1 i)).
  destruct (_ <? 0); [|destruct (_ =? 0)]; cbn [fst snd].
  + destruct (IHn items w1) as (H1 & H2 & H3 & H4 & H5).
    split; [exact H1|]. split; [intros i; rewrite H2; reflexivity|].
    split; [exact H3|]. split; [exact H4|]. lia.
  + destruct (IHz items w1) as (H1 & H2 & H3 & H4 & H5).
    split; [exact H1|]. split; [intros i; rewrite H2; reflexivity|].
    split; [exact H3|]. split; [exact H4|]. lia.
  + destruct (IHp items w1) as (H1 & H2 & H3 & H4 & H5).
    split; [exact H1|]. split; [intros i; rewrite H2; reflexivity|].
    split; [exact H3|]. split; [exact H4|]. lia.
Qed.

(** C6, amended. For every roster and every sort the engine may run,
    [shufflePlayers] stores what that sort makes of the roster when each
    comparator call is answered by the sign of [Math.random() - 0.5] for
    the next draw, one draw per call; it pulses the vibration once and
    changes nothing but the roster.  What it stores is a permutation of
    the same players: every player's identifier and name are unchanged,
    only the order differs. *)
Theorem shuffle_permutes (engine_sort : nat -> SortPlan) (s : AppState) (w : World) :
  let plan := engine_sort (length (players s)) in
  let sorted := follow plan (λ i, sign_of_draw (random_source w i)) (players s) in
  let s' := fst (shufflePlayers engine_sort s w) in
  let w' := snd (shufflePlayers engine_sort s w) in
  players s' = fst sorted /\
  (forall i : nat, random_source w' i = random_source w (snd sorted + i)%nat) /\
  (snd sorted <= plan_depth plan)%nat /\
  effects w' = effects w ++ (if can_vibrate w then [Vibrate 20] else []) /\
  players s' ≡ₚ players s /\
  length (players s') = length (players s) /\
  (forall p : Player, p ∈ players s' <-> p ∈ players s) /\
  id <$> players s' ≡ₚ id <$> players s /\
  name <$> players s' ≡ₚ name <$> players s /\
  same_but_players s s'.
Proof.
intros plan sorted s' w'.
destruct (run_plan_follow plan (players s) w) as (H1 & H2 & H3 & H4 & H5).
fold sorted in H1, H2, H5.
assert (Hp : players s' = fst sorted).
{ subst s'. unfold shufflePlayers. io_run. exact H1. }
assert (Hperm : players s' ≡ₚ players s).
{ rewrite Hp, <- H1. apply run_plan_Permutation. }
split; [exact Hp|].
split.
{ intros i. subst w'. unfold shufflePlayers. io_run. fold plan.
  rewrite <- H2. unfold vibrate, emit.
  destruct (can_vibrate _); reflexivity. }
split; [exact H5|].
split.
{ subst w'. unfold shufflePlayers. io_run. fold plan.
  unfold vibrate, emit. rewrite H3.
  destruct (can_vibrate w); cbn [snd effects]; rewrite H4;
    [reflexivity|rewrite app_nil_r; reflexivity]. }
split; [exact Hperm|].
split; [rewrite Hperm; reflexivity|].
split; [intros p; rewrite Hperm; reflexivity|].
split; [rewrite Hperm; reflexivity|].
split; [rewrite Hperm; reflexivity|].
subst s'. unfold shufflePlayers, same_but_players. io_run. cbn. done.
Qed.

(** The default roster under an insertion sort, the first draw below one
    half and the second above: the first two players change places. *)
Lemma shuffle_permutes_witness :
  let s' := fst (shufflePlayers (λ _, insertion_sort_3) initial_state
                   (world_of [draw_zero; draw_max])) in
  id <$> players s' = ["2"; "1"; "3"] /\
  players s' ≡ₚ players initial_state.
Proof.
intros s'. split; [vm_compute; reflexivity|].
pose proof (shuffle_permutes (λ _, insertion_sort_3) initial_state
              (world_of [draw_zero; draw_max])) as (_ & _ & _ & _ & Hp & _).
exact Hp.
Defined.

(* ===================================================================== *)
(** ** Shuffle: no sort makes the six orderings equally likely             *)
(* ===================================================================== *)

Lemma pow2_mod3 (k : nat) : (2 ^ Z.of_nat k) mod 3 = 1 \/ (2 ^ Z.of_nat k) mod 3 = 2.
Proof.
induction k as [|k IH]; [left; reflexivity|].
rewrite Nat2Z.inj_succ, Z.pow_succ_r by lia.
rewrite Z.mul_mod by lia.
destruct IH as [-> | ->]; [right|left]; reflexivity.
Qed.

(** A probability whose denominator is a power of two is never 1/6. *)
Lemma dyadic_not_sixth (k d : nat) (c : Z) : 6 * c <> (2 ^ Z.of_nat k) ^ Z.of_nat d.
Proof.
rewrite <- Z.pow_mul_r by lia. rewrite <- Nat2Z.inj_mul.
intros H. pose proof (pow2_mod3 (k * d)) as Hm. rewrite <- H in Hm.
replace (6 * c) with (2 * c * 3) in Hm by lia.
rewrite Z.mod_mul in Hm by lia. destruct Hm; discriminate.
Qed.

Lemma no_uniform_shuffle_of_three (o : SignOdds) (k : nat) (p : SortPlan) :
  odds_total o = 2 ^ Z.of_nat k ->
  ~ shuffles_uniformly o p default_players.
Proof.
intros Hk Hu. specialize (Hu default_players ltac:(reflexivity)).
rewrite Hk in Hu. cbn [length default_players fact Nat.mul Nat.add] in Hu.
apply (dyadic_not_sixth k (plan_depth p) _ Hu).
Qed.

(* ===================================================================== *)
(** ** Shuffle: the odds are those of the draws                            *)
(* ===================================================================== *)

Lemma sum_list_with_const {X} (f : X -> nat) (c : nat) (l : list X) :
  (forall x, x ∈ l -> f x = c) -> sum_list_with f l = (length l * c)%nat.
Proof.
induction l as [|x l IH]; intros Hc; [reflexivity|].
cbn. rewrite (Hc x) by left. rewrite IH; [lia|].
intros y Hy. apply Hc. right. exact Hy.
Qed.

Lemma grid_split :
  seqZ 0 scale = seqZ 0 (2 ^ 52) ++ [2 ^ 52] ++ seqZ (2 ^ 52 + 1) (2 ^ 52 - 1).
Proof.
assert (Hs : scale = 2 ^ 52 + (1 + (2 ^ 52 - 1))) by (vm_compute; reflexivity).
rewrite Hs.
rewrite (seqZ_app 0 (2 ^ 52) (1 + (2 ^ 52 - 1))) by lia.
rewrite (seqZ_app (0 + 2 ^ 52) 1 (2 ^ 52 - 1)) by lia.
rewrite (seqZ_cons (0 + 2 ^ 52) 1) by lia.
rewrite (seqZ_nil _ (Z.pred 1)) by lia.
rewrite !Z.add_0_l. reflexivity.
Qed.

(** [ways] with the odds of the grid counts the sequences of draws. *)
Lemma ways_counts_draws {A} `{EqDecision A} (p : SortPlan) :
  forall (d : nat) (items out : list A),
    ways grid_odds p d items out = Z.of_nat (hits p d items out).
Proof.
induction p as [|a b next IH|a b neg IHn zero IHz pos IHp]; intros d items out.
- cbn [ways hits]. destruct (decide (items = out)); [|reflexivity].
  rewrite Nat2Z.inj_pow, Z2Nat.id by (pose proof scale_pos; lia). reflexivity.
- cbn [ways hits]. apply IH.
- destruct d as [|d]; [reflexivity|].
  cbn [ways hits]. rewrite grid_split, !sum_list_with_app.
  rewrite (sum_list_with_const _ (hits neg d items out)).
  2:{ intros m Hm. apply elem_of_seqZ in Hm.
      destruct (Z.ltb_spec (m - 2 ^ 52) 0); [reflexivity|lia]. }
  rewrite (sum_list_with_const _ (hits zero d items out)).
  2:{ intros m Hm. apply list_elem_of_singleton in Hm. subst m. reflexivity. }
  rewrite (sum_list_with_const _ (hits pos d items out)).
  2:{ intros m Hm. apply elem_of_seqZ in Hm.
      destruct (Z.ltb_spec (m - 2 ^ 52) 0); [lia|].
      destruct (Z.eqb_spec (m - 2 ^ 52) 0); [lia|reflexivity]. }
  rewrite !length_seqZ, IHn, IHz, IHp. cbn [length neg_odds zero_odds pos_odds grid_odds].
  rewrite !Nat2Z.inj_add, !Nat2Z.inj_mul, !Z2Nat.id by lia. lia.
Qed.

(** C6, as stated, fails on the default roster: whatever sort the engine
    runs, under the comparator [() => Math.random() - 0.5] the six
    orderings are not equally likely, be the draw one of the [2^53] grid
    values (counted by weight or by listing the draws) or an ideal real
    number.  With a plain insertion sort, for one, two of the six
    orderings come out twice as often as each of the other four. *)
Lemma shuffle_uniform_counterexample :
  (forall plan : SortPlan, ~ shuffles_uniformly grid_odds plan default_players) /\
  (forall plan : SortPlan,
     ~ forall out : list Player,
         out ≡ₚ default_players ->
         6 * Z.of_nat (hits plan (plan_depth plan) default_players out)
         = scale ^ Z.of_nat (plan_depth plan)) /\
  (forall plan : SortPlan, ~ shuffles_uniformly ideal_odds plan default_players) /\
  (let p1 := mk_player "1" "Jugador 1" in
   let p2 := mk_player "2" "Jugador 2" in
   let p3 := mk_player "3" "Jugador 3" in
   map (ways ideal_odds insertion_sort_3 3 default_players)
     [ [p1; p2; p3]; [p1; p3; p2]; [p2; p1; p3];
       [p2; p3; p1]; [p3; p1; p2]; [p3; p2; p1] ]
   = [2; 1; 2; 1; 1; 1]).
Proof.
split; [|split; [|split]].
- intros plan. apply (no_uniform_shuffle_of_three grid_odds 53 plan). reflexivity.
- intros plan Hu.
  apply (no_uniform_shuffle_of_three grid_odds 53 plan); [reflexivity|].
  intros out Hout. rewrite ways_counts_draws. exact (Hu out Hout).
- intros plan. apply (no_uniform_shuffle_of_three ideal_odds 1 plan). reflexivity.
- vm_compute. reflexivity.
Qed.

(* ===================================================================== *)
(** ** Adding a player                                                     *)
(* ===================================================================== *)

Section StripFacts.

Variable w2 : Ascii.ascii -> Ascii.ascii -> bool.
Variable w3 : Ascii.ascii -> Ascii.ascii -> Ascii.ascii -> bool.

Implicit Types (s : string) (l ws : list Ascii.ascii).

Lemma white_run_one c r :
  Ascii.is_space c = true -> white_run w2 w3 r -> white_run w2 w3 (c :: r).
Proof. intros Hc Hr. apply (white_run_app w2 w3 [c] r Hc Hr). Qed.

Lemma white_run_two c1 c2 r :
  w2 c1 c2 = true -> white_run w2 w3 r -> white_run w2 w3 (c1 :: c2 :: r).
Proof. intros Hc Hr. apply (white_run_app w2 w3 [c1; c2] r Hc Hr). Qed.

Lemma white_run_three c1 c2 c3 r :
  w3 c1 c2 c3 = true -> white_run w2 w3 r -> white_run w2 w3 (c1 :: c2 :: c3 :: r).
Proof. intros Hc Hr. apply (white_run_app w2 w3 [c1; c2; c3] r Hc Hr). Qed.

Lemma white_run_append l1 l2 :
  white_run w2 w3 l1 -> white_run w2 w3 l2 -> white_run w2 w3 (l1 ++ l2).
Proof.
induction 1 as [|ws r Hws Hr IH]; intros H2; [exact H2|].
rewrite <- app_assoc. apply white_run_app; [exact Hws|apply IH, H2].
Qed.

Lemma strip_white_spec_bounded (n : nat) :
  forall s, (String.length s < n)%nat ->
    exists a, white_run w2 w3 a /\
              chars s = a ++ chars (strip_white w2 w3 s) /\
              no_white_head w2 w3 (chars (strip_white w2 w3 s)).
Proof.
induction n as [|n IH]; intros s Hn; [lia|].
destruct s as [|c1 r1].
{ exists []. split; [constructor|]. split; [reflexivity|].
  intros ws Hws [k Hk]. cbn in Hk. destruct ws as [|? [|? [|? [|]]]]; discriminate. }
cbn [strip_white]. destruct (Ascii.is_space c1) eqn:H1.
{ destruct (IH r1) as (a & Ha & Heq & Hh); [cbn in Hn; lia|].
  exists (c1 :: a). split; [apply white_run_one; assumption|].
  split; [|exact Hh]. cbn [chars String.list_ascii_of_string] in *. rewrite Heq at 1. reflexivity. }
destruct r1 as [|c2 r2].
{ exists []. split; [constructor|]. split; [reflexivity|].
  intros ws Hws [k Hk]. cbn in Hk.
  destruct ws as [|? [|? [|? [|]]]]; cbn in Hws; simplify_eq/=; congruence. }
destruct (w2 c1 c2) eqn:H2.
{ destruct (IH r2) as (a & Ha & Heq & Hh); [cbn in Hn; lia|].
  exists (c1 :: c2 :: a). split; [apply white_run_two; assumption|].
  split; [|exact Hh]. cbn [chars String.list_ascii_of_string] in *. rewrite Heq at 1. reflexivity. }
destruct r2 as [|c3 r3].
{ exists []. split; [constructor|]. split; [reflexivity|].
  intros ws Hws [k Hk]. cbn in Hk.
  destruct ws as [|? [|? [|? [|]]]]; cbn in Hws; simplify_eq/=; congruence. }
destruct (w3 c1 c2 c3) eqn:H3.
{ destruct (IH r3) as (a & Ha & Heq & Hh); [cbn in Hn; lia|].
  exists (c1 :: c2 :: c3 :: a). split; [apply white_run_three; assumption|].
  split; [|exact Hh]. cbn [chars String.list_ascii_of_string] in *. rewrite Heq at 1. reflexivity. }
exists []. split; [constructor|]. split; [reflexivity|].
intros ws Hws [k Hk]. cbn in Hk.
destruct ws as [|? [|? [|? [|]]]]; cbn in Hws; simplify_eq/=; congruence.
Qed.

Lemma strip_white_spec s :
  exists a, white_run w2 w3 a /\
            chars s = a ++ chars (strip_white w2 w3 s) /\
            no_white_head w2 w3 (chars (strip_white w2 w3 s)).
Proof. apply (strip_white_spec_bounded (S (String.length s))). lia. Qed.

Hypothesis two_not_one : forall a b, w2 a b = true -> Ascii.is_space a = false.
Hypothesis three_not_shorter :
  forall a b c, w3 a b c = true -> Ascii.is_space a = false /\ w2 a b = false.

Lemma strip_white_run l :
  white_run w2 w3 l -> forall s, chars s = l -> strip_white w2 w3 s = EmptyString.
Proof.
induction 1 as [|ws r Hws Hr IH]; intros s Hs.
- destruct s; [reflexivity|discriminate].
- destruct ws as [|c1 [|c2 [|c3 [|]]]]; cbn in Hws; try discriminate.
  + destruct s as [|x s]; [discriminate|]. cbn in Hs. simplify_eq.
    cbn [strip_white]. rewrite Hws. apply IH. reflexivity.
  + destruct s as [|x [|y s]]; try discriminate. cbn in Hs. simplify_eq.
    cbn [strip_white]. rewrite (two_not_one _ _ Hws), Hws. apply IH. reflexivity.
  + destruct s as [|x [|y [|z s]]]; try discriminate. cbn in Hs. simplify_eq.
    cbn [strip_white]. destruct (three_not_shorter _ _ _ Hws) as [-> ->].
    rewrite Hws. apply IH. reflexivity.
Qed.

End StripFacts.

Lemma chars_rev_app (s1 s2 : string) :
  chars (String.rev_app s1 s2) = reverse (chars s1) ++ chars s2.
Proof.
revert s2. induction s1 as [|c s1 IH]; intros s2; [reflexivity|].
cbn [String.rev_app]. rewrite IH. cbn [chars String.list_ascii_of_string].
rewrite reverse_cons, <- app_assoc. reflexivity.
Qed.

Lemma chars_rev (s : string) : chars (String.rev s) = reverse (chars s).
Proof. unfold String.rev. rewrite chars_rev_app. apply app_nil_r. Qed.

Lemma chars_empty (s : string) : chars s = [] -> s = EmptyString.
Proof. destruct s; [reflexivity|discriminate]. Qed.

Section TrimFacts.

Implicit Types (s : string) (c : Ascii.ascii) (l ws : list Ascii.ascii).

Lemma is_space_byte c : Ascii.is_space c = true -> (byte c <= 32)%N.
Proof.
destruct c as [[] [] [] [] [] [] [] []]; intros H; try discriminate H;
  unfold N.le; vm_compute; discriminate.
Qed.

Lemma not_space_above c : (32 < byte c)%N -> Ascii.is_space c = false.
Proof.
intros Hb. destruct (Ascii.is_space c) eqn:Hc; [|reflexivity].
apply is_space_byte in Hc. lia.
Qed.

Lemma white2_bytes c1 c2 :
  white2 c1 c2 = true -> byte c1 = 194%N /\ byte c2 = 160%N.
Proof.
unfold white2. lia.
Qed.

Lemma white3_bytes c1 c2 c3 :
  white3 c1 c2 c3 = true ->
  (225 <= byte c1 <= 239 /\ 128 <= byte c2 <= 187 /\ 128 <= byte c3 <= 191)%N.
Proof.
unfold white3. lia.
Qed.

Lemma white2_not_one c1 c2 : white2 c1 c2 = true -> Ascii.is_space c1 = false.
Proof. intros H. apply white2_bytes in H. apply not_space_above. lia. Qed.

Lemma white3_not_shorter c1 c2 c3 :
  white3 c1 c2 c3 = true -> Ascii.is_space c1 = false /\ white2 c1 c2 = false.
Proof.
intros H. apply white3_bytes in H. split; [apply not_space_above; lia|].
unfold white2. destruct (N.eqb_spec (byte c1) 194); [lia|reflexivity].
Qed.

Lemma white2_flip_not_one c1 c2 : white2 c2 c1 = true -> Ascii.is_space c1 = false.
Proof. intros H. apply white2_bytes in H. apply not_space_above. lia. Qed.

Lemma white3_flip_not_shorter c1 c2 c3 :
  white3 c3 c2 c1 = true -> Ascii.is_space c1 = false /\ white2 c2 c1 = false.
Proof.
intros H. apply white3_bytes in H. split; [apply not_space_above; lia|].
unfold white2. destruct (N.eqb_spec (byte c2) 194); [lia|reflexivity].
Qed.

Lemma white_seq_length (w2 : Ascii.ascii -> Ascii.ascii -> bool)
    (w3 : Ascii.ascii -> Ascii.ascii -> Ascii.ascii -> bool) ws :
  white_seq w2 w3 ws = true -> (1 <= length ws <= 3)%nat.
Proof.
destruct ws as [|c1 [|c2 [|c3 [|c4 ws]]]]; cbn; intros H;
  try discriminate H; lia.
Qed.

Lemma white_seq_flip ws :
  white_seq (λ a b, white2 b a) (λ a b c, white3 c b a) ws
  = is_white_char (reverse ws).
Proof.
destruct ws as [|c1 [|c2 [|c3 [|c4 ws]]]]; try reflexivity.
cbn [white_seq].
destruct (is_white_char (reverse (c1 :: c2 :: c3 :: c4 :: ws))) eqn:Hw; [|reflexivity].
apply white_seq_length in Hw. rewrite length_reverse in Hw. cbn in Hw. lia.
Qed.

Lemma white_run_flip l :
  white_run (λ a b, white2 b a) (λ a b c, white3 c b a) l ->
  white_only (reverse l).
Proof.
induction 1 as [|ws r Hws Hr IH]; [constructor|].
rewrite reverse_app. apply white_run_append; [exact IH|].
rewrite <- (app_nil_r (reverse ws)). apply white_run_app; [|constructor].
rewrite white_seq_flip in Hws. exact Hws.
Qed.

Lemma blank_white_only s : blank s -> white_only (chars s).
Proof.
unfold blank. induction 1 as [|c l Hc Hl IH]; [constructor|].
apply white_run_one; assumption.
Qed.

Lemma trimStart_white_only s : white_only (chars s) -> trimStart s = EmptyString.
Proof.
intros Hw. apply (strip_white_run white2 white3 white2_not_one white3_not_shorter
                    (chars s) Hw). reflexivity.
Qed.

(** What [trim] returns: the input without a run of white space at its
    start and another at its end, and what is left neither starts nor
    ends with a white-space character. *)
Lemma trim_spec s :
  exists a b,
    white_only a /\ white_only b /\
    chars s = a ++ chars (trim s) ++ b /\
    (forall ws, is_white_char ws = true ->
       ~ ws `prefix_of` chars (trim s) /\ ~ ws `suffix_of` chars (trim s)).
Proof.
destruct (strip_white_spec white2 white3 s) as (a & Ha & Hs & Hhead).
fold (trimStart s) in Hs, Hhead.
destruct (strip_white_spec (λ a b, white2 b a) (λ a b c, white3 c b a)
            (String.rev (trimStart s))) as (a' & Ha' & Hr & Hhead').
set (u := strip_white _ _ (String.rev (trimStart s))) in *.
assert (Ht : chars (trim s) = reverse (chars u)).
{ unfold trim, trimEnd. fold u. apply chars_rev. }
assert (Hsplit : chars (trimStart s) = chars (trim s) ++ reverse a').
{ rewrite Ht, <- reverse_app, <- Hr, chars_rev, reverse_involutive. reflexivity. }
exists a, (reverse a'). split; [exact Ha|]. split; [apply white_run_flip, Ha'|].
split; [rewrite Hs, Hsplit; reflexivity|].
intros ws Hws. split.
- intros Hp. apply (Hhead ws Hws). rewrite Hsplit. apply prefix_app_r, Hp.
- intros Hsuf. apply (Hhead' (reverse ws)).
  + rewrite white_seq_flip, reverse_involutive. exact Hws.
  + rewrite Ht in Hsuf. apply suffix_prefix_reverse in Hsuf.
    rewrite reverse_involutive in Hsuf. exact Hsuf.
Qed.

(** [trim] gives the empty string exactly on white space only. *)
Lemma trim_white_only s : white_only (chars s) -> trim s = EmptyString.
Proof. intros Hw. unfold trim. rewrite (trimStart_white_only s Hw). reflexivity. Qed.

Lemma trim_empty_white_only s : trim s = EmptyString -> white_only (chars s).
Proof.
intros He. destruct (trim_spec s) as (a & b & Ha & Hb & Hs & _).
rewrite Hs, He. cbn. apply white_run_append; assumption.
Qed.

Lemma trim_blank s : blank s -> trim s = EmptyString.
Proof. intros Hb. apply trim_white_only, blank_white_only, Hb. Qed.

End TrimFacts.

(** X1. A blank name, empty or of white space only, is not added:
    [addPlayer] leaves the state as it is, and neither draws an
    identifier nor does anything else to the world. *)
Theorem addPlayer_blank_ignored (toString36 : unit_double -> string)
    (s : AppState) (w : World) :
  blank (newPlayerName s) ->
  addPlayer toString36 s w = (s, w).
Proof.
intros Hb. unfold addPlayer. rewrite (trim_blank _ Hb). reflexivity.
Qed.

(** Three blanks typed into the name field. *)
Lemma addPlayer_blank_ignored_witness :
  let s := setNewPlayerName "   " initial_state in
  blank (newPlayerName s) /\
  addPlayer (λ _, "0.i") s (world_of [draw_half]) = (s, world_of [draw_half]).
Proof.
intros s.
assert (Hb : blank (newPlayerName s)).
{ unfold blank. repeat constructor. }
split; [exact Hb|].
apply (addPlayer_blank_ignored (λ _, "0.i") s (world_of [draw_half]) Hb).
Defined.

(** X2. [addPlayer] adds a player exactly when the typed name holds
    something other than white space.  A name made of white-space
    characters only, those [trim] strips, ASCII or not, is not added: the
    state and the world stay as they are.  Any other name adds exactly one
    player at the end of the roster and keeps the players already there,
    in place.  The stored name is the trimmed input, that is the input
    without a run of white space at its start and one at its end: it is
    not empty and neither starts nor ends with a white-space character.
    The identifier is characters 2 to 10 of the base-36 rendering of one
    fresh draw; the input field is cleared, nothing else in the state
    changes and no effect is issued. *)
Theorem addPlayer_appends (toString36 : unit_double -> string)
    (s : AppState) (w : World) :
  let input := chars (newPlayerName s) in
  let s' := fst (addPlayer toString36 s w) in
  let w' := snd (addPlayer toString36 s w) in
  let p := mk_player (String.substring 2 9 (toString36 (random_source w 0%nat)))
                     (trim (newPlayerName s)) in
  (white_only input -> s' = s /\ w' = w) /\
  (~ white_only input ->
   players s' = players s ++ [p] /\
   len (players s') = len (players s) + 1 /\
   name p <> EmptyString /\
   (exists a b, white_only a /\ white_only b /\ input = a ++ chars (name p) ++ b) /\
   (forall ws, is_white_char ws = true ->
      ~ ws `prefix_of` chars (name p) /\ ~ ws `suffix_of` chars (name p)) /\
   newPlayerName s' = EmptyString /\
   same_but_roster_and_field s s' /\
   effects w' = effects w /\
   can_vibrate w' = can_vibrate w /\
   (forall i : nat, random_source w' i = random_source w (S i))).
Proof.
intros input s' w' p. split.
- intros Hw. subst s' w'. unfold addPlayer.
  rewrite (trim_white_only _ Hw). done.
- intros Hnw.
  assert (Hne : trim (newPlayerName s) <> EmptyString).
  { intros He. apply Hnw, trim_empty_white_only, He. }
  assert (Ht : truthy (trim (newPlayerName s)) = true).
  { destruct (trim (newPlayerName s)); [contradiction|reflexivity]. }
  destruct (trim_spec (newPlayerName s)) as (a & b & Ha & Hb & Hs & Hends).
  subst s' w'. unfold addPlayer. rewrite Ht. io_run.
  cbn [players setPlayers setNewPlayerName newPlayerName].
  split; [reflexivity|].
  split; [unfold len; rewrite length_app; cbn; lia|].
  split; [exact Hne|].
  split; [exists a, b; done|].
  split; [exact Hends|].
  split; [reflexivity|].
  split; [unfold same_but_roster_and_field; cbn; done|].
  done.
Qed.

(** A no-break space alone is not a name; around "Ana", a no-break space,
    a blank, an ideographic space and a tab are trimmed away. *)
Lemma addPlayer_appends_witness :
  let nbsp := utf8 [194; 160]%N in
  let padded := utf8 [194; 160; 32; 65; 110; 97; 227; 128; 128; 9]%N in
  let w := world_of [draw_half] in
  addPlayer (λ _, "0.i") (setNewPlayerName nbsp initial_state) w
    = (setNewPlayerName nbsp initial_state, w) /\
  players (fst (addPlayer (λ _, "0.i") (setNewPlayerName padded initial_state) w))
    = default_players ++ [mk_player "i" "Ana"] /\
  len (players (fst (addPlayer (λ _, "0.i") (setNewPlayerName padded initial_state) w)))
    = 4.
Proof.
intros nbsp padded w.
assert (Hnw : ~ white_only (chars padded)).
{ intros Hw. apply trim_white_only in Hw. vm_compute in Hw. discriminate Hw. }
pose proof (proj2 (addPlayer_appends (λ _, "0.i") (setNewPlayerName padded initial_state) w)
              Hnw) as (Hp & Hlen & _).
assert (Hw : white_only (chars nbsp)).
{ apply (white_run_app white2 white3 (chars nbsp) []); [reflexivity|constructor]. }
pose proof (proj1 (addPlayer_appends (λ _, "0.i") (setNewPlayerName nbsp initial_state) w)
              Hw) as [Hs Hw'].
split; [rewrite <- Hs at 2; rewrite <- Hw' at 2; apply surjective_pairing|].
split; [exact Hp|exact Hlen].
Defined.

(* ===================================================================== *)
(** ** Renaming and removing                                               *)
(* ===================================================================== *)

Section RenameFacts.

Implicit Types (l : list Player) (i j n m : string).

Lemma renamed_id i n p : id (renamed i n p) = id p.
Proof. unfold renamed. destruct (decide (id p = i)); reflexivity. Qed.

Lemma renamed_twice i n m p : renamed i m (renamed i n p) = renamed i m p.
Proof.
unfold renamed. destruct (decide (id p = i)); cbn; repeat case_decide; congruence.
Qed.

Lemma renamed_commute i j n m p :
  i <> j -> renamed i n (renamed j m p) = renamed j m (renamed i n p).
Proof.
intros Hij. unfold renamed.
destruct (decide (id p = j)), (decide (id p = i)); cbn;
  repeat case_decide; congruence.
Qed.

Lemma updatePlayerName_players i n (s : AppState) :
  players (updatePlayerName i n s) = renamed i n <$> players s.
Proof. reflexivity. Qed.

End RenameFacts.

(** X3. Renaming keeps the roster's shape: the identifiers, their order
    and the number of players are unchanged, so the roster floor and the
    distinctness of identifiers survive it.  Every player carrying the
    identifier gets exactly the given name, untrimmed and possibly empty;
    every other player is untouched; with an identifier nobody carries the
    state does not change at all. *)
Theorem updatePlayerName_keeps_roster (i n : string) (s : AppState) :
  id <$> players (updatePlayerName i n s) = id <$> players s /\
  len (players (updatePlayerName i n s)) = len (players s) /\
  (forall (k : nat) (p : Player),
     players s !! k = Some p ->
     players (updatePlayerName i n s) !! k
     = Some (if decide (id p = i) then mk_player i n else p)) /\
  (forall p : Player,
     p ∈ players (updatePlayerName i n s) -> id p = i -> name p = n) /\
  (i ∉ id <$> players s -> updatePlayerName i n s = s) /\
  updatePlayerName i n s = setPlayers (players (updatePlayerName i n s)) s.
Proof.
rewrite !updatePlayerName_players.
split; [|split; [|split; [|split; [|split]]]].
- rewrite <- list_fmap_compose. apply list_fmap_ext.
  intros k p _. apply renamed_id.
- unfold len. rewrite length_fmap. reflexivity.
- intros k p Hk. rewrite list_lookup_fmap, Hk. cbn. unfold renamed.
  destruct (decide (id p = i)) as [<-|]; reflexivity.
- intros p Hp Hi. apply list_elem_of_fmap in Hp as (q & -> & _).
  unfold renamed in *. destruct (decide (id q = i)); [reflexivity|].
  contradiction.
- intros Hi. unfold updatePlayerName.
  replace ((λ p, if decide (id p = i) then mk_player (id p) n else p) <$> players s)
    with (players s); [apply setPlayers_same|].
  rewrite <- (list_fmap_id (players s)) at 1. apply list_fmap_ext.
  intros k p Hk. destruct (decide (id p = i)) as [He|]; [|reflexivity].
  exfalso. apply Hi. apply list_elem_of_fmap. exists p.
  split; [congruence|]. eapply list_elem_of_lookup_2, Hk.
- reflexivity.
Qed.

(** X4. Renames compose as assignments do: a second rename of the same
    identifier overwrites the first, and renames of different identifiers
    commute. *)
Theorem updatePlayerName_composes (i j n m : string) (s : AppState) :
  updatePlayerName i m (updatePlayerName i n s) = updatePlayerName i m s /\
  (i <> j ->
   updatePlayerName i n (updatePlayerName j m s)
   = updatePlayerName j m (updatePlayerName i n s)).
Proof.
split.
- change (updatePlayerName i m (updatePlayerName i n s))
    with (setPlayers (renamed i m <$> (renamed i n <$> players s)) s).
  change (updatePlayerName i m s) with (setPlayers (renamed i m <$> players s) s).
  apply (f_equal (λ v, setPlayers v s)).
  rewrite <- list_fmap_compose. apply list_fmap_ext.
  intros k p _. apply (renamed_twice i n m p).
- intros Hij.
  change (updatePlayerName i n (updatePlayerName j m s))
    with (setPlayers (renamed i n <$> (renamed j m <$> players s)) s).
  change (updatePlayerName j m (updatePlayerName i n s))
    with (setPlayers (renamed j m <$> (renamed i n <$> players s)) s).
  apply (f_equal (λ v, setPlayers v s)).
  rewrite <- !list_fmap_compose. apply list_fmap_ext.
  intros k p _. apply (renamed_commute i j n m p Hij).
Qed.

(** X5. Removing is a filter behind a size test: what is left is a
    sublist of the roster (nobody is added, renamed or reordered), every
    player with another identifier stays, on a roster of more than three
    nobody with the identifier is left, and removing the same identifier
    again changes nothing. *)
Theorem removePlayer_filters (i : string) (s : AppState) :
  players (removePlayer i s) `sublist_of` players s /\
  (forall p : Player, p ∈ players s -> id p <> i -> p ∈ players (removePlayer i s)) /\
  (3 < len (players s) -> i ∉ id <$> players (removePlayer i s)) /\
  removePlayer i (removePlayer i s) = removePlayer i s /\
  removePlayer i s = setPlayers (players (removePlayer i s)) s.
Proof.
unfold removePlayer.
destruct (Z.ltb_spec 3 (len (players s))) as [Hgt|Hle]; cbn [players setPlayers].
- split; [apply sublist_filter|].
  split; [intros p Hp Hne; apply list_elem_of_filter; done|].
  split.
  { intros _ Hin. apply list_elem_of_fmap in Hin as (q & Hq & Hin).
    apply list_elem_of_filter in Hin as [Hne _]. congruence. }
  split; [|reflexivity].
  destruct (3 <? len (filter (λ p, id p ≠ i) (players s))); [|reflexivity].
  change (setPlayers ?a (setPlayers ?b s)) with (setPlayers a s).
  apply (f_equal (λ v, setPlayers v s)).
  apply list_filter_filter_l. done.
- split; [reflexivity|]. split; [done|]. split; [lia|].
  destruct (Z.ltb_spec 3 (len (players s))); [lia|].
  split; [reflexivity|]. symmetry. apply setPlayers_same.
Qed.

(* ===================================================================== *)
(** ** What every session keeps                                            *)
(* ===================================================================== *)

Section SessionInvariant.

Variable WORDS : list string.
Variable toString36 : unit_double -> string.
Variable engine_sort : nat -> SortPlan.

(** A round started on a roster of three or more has a sound assignment. *)
Lemma startGame_assignment_ok (s : AppState) (w : World) :
  3 <= len (players s) ->
  assignment_ok (fst (startGame WORDS s w)).
Proof.
intros Hn. unfold assignment_ok.
destruct (startGame_fields WORDS s w) as (_ & _ & _ & _ & Hpl & _).
rewrite Hpl.
destruct (gameMode s) eqn:Hm.
- destruct (startGame_classic WORDS s w Hm) as [Hi _].
  pose proof (floor_mul_range (random_source w 0%nat) (len (players s)) ltac:(lia)) as Hr.
  exists [floor_mul (random_source w 0%nat) (len (players s))].
  split; [exact Hi|]. split; [apply NoDup_singleton|].
  split; [intros i Hin; apply list_elem_of_singleton in Hin; subst i; exact Hr|].
  change (len [floor_mul (random_source w 0%nat) (len (players s))]) with 1. lia.
- destruct (startGame_uncertainty WORDS s w Hm Hn) as [Hi _].
  set (n := len (players s)) in *.
  set (k := Z.to_nat (floor_mul (random_source w 0%nat) (n - 1) + 1)) in *.
  pose proof (floor_mul_range (random_source w 0%nat) (n - 1) ltac:(lia)) as Hk.
  assert (Hc : (k <= length (seqZ 0 n))%nat).
  { rewrite length_seqZ. unfold k. lia. }
  destruct (pool_draws_spec k (seqZ 0 n) (skip 1 (random_source w)) Hc
              (NoDup_seqZ 0 n)) as (Hlen & Hnd & Hsub).
  exists (pool_draws k (seqZ 0 n) (skip 1 (random_source w))).
  split; [exact Hi|]. split; [exact Hnd|].
  split; [intros i Hin; apply Hsub, elem_of_seqZ in Hin; lia|].
  assert (Hl : len (pool_draws k (seqZ 0 n) (skip 1 (random_source w))) = Z.of_nat k).
  { unfold len. rewrite Hlen. reflexivity. }
  rewrite Hl. unfold k. lia.
Qed.

Lemma startGame_word_ok (s : AppState) (w : World) :
  WORDS <> [] -> word_ok WORDS (fst (startGame WORDS s w)).
Proof.
intros Hne. unfold word_ok. rewrite startGame_word.
assert (Hlen : 0 < len WORDS).
{ unfold len. destruct WORDS; [done|]. simpl. lia. }
apply index_in_range, floor_mul_range, Hlen.
Qed.

Lemma startGame_session_ok (s : AppState) (w : World) :
  3 <= len (players s) -> 1 <= round s ->
  session_ok WORDS (fst (startGame WORDS s w)).
Proof.
intros Hn Hr.
pose proof (startGame_assignment_ok s w Hn) as Ha.
destruct (startGame_fields WORDS s w) as (Hg & Hi & Hrev & _ & Hpl & Hmo & Hrd).
unfold session_ok. rewrite Hg, Hi, Hrev, Hrd, Hpl, Hmo.
split; [discriminate|]. split; [reflexivity|].
split; [destruct (decide (gameState s = finished)); lia|].
right. split; [exact Hn|]. split; [lia|]. split; [exact Ha|].
split; [|apply startGame_word_ok].
intros Hm. destruct (startGame_classic WORDS s w Hm) as [Hc _].
rewrite Hc. reflexivity.
Qed.

(** The invariant reads only these fields. *)
Lemma session_ok_fields (s s' : AppState) :
  gameState s' = gameState s -> isRevealed s' = isRevealed s ->
  round s' = round s -> players s' = players s ->
  currentPlayerIndex s' = currentPlayerIndex s ->
  impostorIndices s' = impostorIndices s -> currentWord s' = currentWord s ->
  gameMode s' = gameMode s ->
  session_ok WORDS s -> session_ok WORDS s'.
Proof.
intros Hg Hre Hro Hp Hi Him Hw Hmo.
unfold session_ok, assignment_ok, word_ok.
rewrite Hg, Hre, Hro, Hp, Hi, Him, Hw, Hmo. done.
Qed.

Lemma session_ok_setup (s s' : AppState) :
  gameState s' = setup -> isRevealed s' = isRevealed s -> round s' = round s ->
  session_ok WORDS s -> session_ok WORDS s'.
Proof.
intros Hg Hre Hro (_ & H2 & H3 & _).
unfold session_ok. rewrite Hg, Hre, Hro.
split; [discriminate|]. split; [exact H2|]. split; [exact H3|]. left. reflexivity.
Qed.

Lemma rendered_setup (s : AppState) (e : Event) :
  rendered s e = true ->
  match e with
  | ClickRules | ClickShuffle | ClickName _ | ChangeName _ _ | EndEdit
  | ClickPencil _ | ClickRemove _ | TypeNewName _ | ClickAdd | ClickMode _
  | ClickStart => gameState s = setup
  | PointerDown | PointerUp | PointerLeave | ClickNext => gameState s = playing
  | ClickNewRound | ClickBackToStart => gameState s = finished
  | CloseRules => showRules s = true
  | DragEnd _ => False
  end.
Proof.
destruct e; cbn [rendered]; intros H;
  repeat match type of H with
         | _ && _ = true => apply andb_prop in H as [H ?]
         end;
  try (apply bool_decide_eq_true in H; exact H);
  try exact H; try discriminate H.
Qed.

Lemma removePlayer_gameState (i : string) (s : AppState) :
  gameState (removePlayer i s) = gameState s /\
  isRevealed (removePlayer i s) = isRevealed s /\
  round (removePlayer i s) = round s.
Proof. unfold removePlayer. destruct (3 <? len (players s)); done. Qed.

Lemma addPlayer_gameState (s : AppState) (w : World) :
  gameState (fst (addPlayer toString36 s w)) = gameState s /\
  isRevealed (fst (addPlayer toString36 s w)) = isRevealed s /\
  round (fst (addPlayer toString36 s w)) = round s.
Proof. unfold addPlayer. destruct (truthy _); io_run; done. Qed.

(** Every event keeps the invariant. *)
Lemma dispatch_session_ok (e : Event) (s : AppState) (w : World) :
  session_ok WORDS s ->
  session_ok WORDS (fst (dispatch WORDS toString36 engine_sort e s w)).
Proof.
intros Hok. unfold dispatch.
destruct (rendered s e) eqn:Hr; [|exact Hok].
pose proof (rendered_setup s e Hr) as Hph.
destruct e; cbn [handler]; io_run;
  try (apply (session_ok_fields s); [reflexivity..|exact Hok]).
- (* ClickShuffle *)
  unfold shufflePlayers. io_run. apply (session_ok_setup s); done.
- (* ChangeName *)
  apply (session_ok_setup s); done.
- (* ClickRemove *)
  destruct (removePlayer_gameState i s) as (Hg & Hre & Hro).
  apply (session_ok_setup s); congruence.
- (* ClickAdd *)
  destruct (addPlayer_gameState s w) as (Hg & Hre & Hro).
  apply (session_ok_setup s); congruence.
- (* ClickMode *)
  apply (session_ok_setup s); done.
- (* ClickStart *)
  cbn [rendered] in Hr. apply andb_prop in Hr as [_ Hlen].
  apply negb_true_iff, Z.ltb_ge in Hlen.
  apply startGame_session_ok; [exact Hlen|]. destruct Hok as (_ & _ & H3 & _). exact H3.
- (* PointerDown *)
  unfold onPointerDown. io_run.
  apply (session_ok_fields s); [reflexivity..|exact Hok].
- (* ClickNext *)
  destruct Hok as (H1 & H2 & H3 & [Hs|(Hn & Hi & Ha & Hw)]); [congruence|].
  unfold nextPlayer.
  destruct (Z.ltb_spec (currentPlayerIndex s) (len (players s) - 1)) as [Hlt|Hge];
    io_run.
  + unfold session_ok. cbn.
    split; [exact H1|]. split; [reflexivity|]. split; [exact H3|].
    right. split; [exact Hn|]. split; [lia|]. split; [exact Ha|exact Hw].
  + unfold session_ok. cbn.
    split; [discriminate|]. split; [exact H2|]. split; [exact H3|].
    right. split; [exact Hn|]. split; [exact Hi|]. split; [exact Ha|exact Hw].
- (* ClickNewRound *)
  destruct Hok as (_ & _ & H3 & [Hs|(Hn & _)]); [congruence|].
  apply startGame_session_ok; assumption.
- (* ClickBackToStart *)
  apply (session_ok_setup s); done.
- (* DragEnd *)
  contradiction.
Qed.

Lemma dispatch_all_session_ok (es : list Event) :
  forall (s : AppState) (w : World),
    session_ok WORDS s ->
    session_ok WORDS (fst (dispatch_all WORDS toString36 engine_sort es s w)).
Proof.
induction es as [|e es IH]; intros s w Hok; [exact Hok|].
cbn [dispatch_all]. rewrite fst_bind. apply IH, dispatch_session_ok, Hok.
Qed.

Lemma initial_session_ok : session_ok WORDS initial_state.
Proof.
unfold session_ok. cbn. split; [discriminate|]. split; [reflexivity|].
split; [lia|]. left. reflexivity.
Qed.

End SessionInvariant.

Lemma session_session_ok (WORDS : list string) (toString36 : unit_double -> string)
    (engine_sort : nat -> SortPlan) (es : list Event) (w : World) :
  session_ok WORDS (fst (session WORDS toString36 engine_sort es w)).
Proof. apply dispatch_all_session_ok, initial_session_ok. Qed.

Lemma index_defined {A} (l : list A) (i : Z) :
  0 <= i < len l -> is_Some (index l i).
Proof.
intros Hi. destruct (index_in_range l i Hi) as (v & Hv & _). rewrite Hv. eauto.
Qed.

(** X8. Two parts of the state are dead: no session ever puts the phase
    on ['reveal'], and, no element carrying the drag handler,
    [isRevealed] is false in every state a session reaches.  The round
    counter never goes below 1. *)
Theorem session_dead_state (WORDS : list string) (toString36 : unit_double -> string)
    (engine_sort : nat -> SortPlan) (es : list Event) (w : World) :
  let s := fst (session WORDS toString36 engine_sort es w) in
  gameState s <> reveal /\ isRevealed s = false /\ 1 <= round s.
Proof.
intros s.
destruct (session_session_ok WORDS toString36 engine_sort es w) as (H1 & H2 & H3 & _).
done.
Qed.

(** X9. With a word list that is not empty, in every state a session
    reaches outside Setup the stored word is an element of the list, so
    the card of a seat that is no impostor shows a word of the list and
    never [undefined]. *)
Theorem session_word_valid (WORDS : list string) (toString36 : unit_double -> string)
    (engine_sort : nat -> SortPlan) (es : list Event) (w : World) :
  WORDS <> [] ->
  let s := fst (session WORDS toString36 engine_sort es w) in
  gameState s = setup \/
  exists word : string,
    currentWord s = Some word /\ word ∈ WORDS /\
    (forall i : Z,
       card_of_seat s i = ImpostorCard \/ card_of_seat s i = WordCard (Some word)).
Proof.
intros Hne s.
destruct (session_session_ok WORDS toString36 engine_sort es w)
  as (_ & _ & _ & [Hs|(_ & _ & _ & _ & Hw)]); fold s in Hs || fold s in Hw.
- left. exact Hs.
- right. destruct (Hw Hne) as (word & Hword & Hin).
  exists word. split; [exact Hword|]. split; [exact Hin|].
  intros i. unfold card_of_seat, card. cbn.
  destruct (includes (impostorIndices s) i); [left; reflexivity|].
  right. rewrite Hword. reflexivity.
Qed.

Lemma session_word_valid_witness :
  let s := fst (session ["SUN"; "MOON"] (λ _, "0.i") (λ _, insertion_sort_3)
                  [ClickStart; ClickNext] (world_of [draw_half; draw_max])) in
  ["SUN"; "MOON"] <> [] /\
  currentWord s = Some "MOON" /\
  (gameState s = setup \/
   exists word : string,
     currentWord s = Some word /\ word ∈ ["SUN"; "MOON"] /\
     (forall i : Z,
        card_of_seat s i = ImpostorCard \/ card_of_seat s i = WordCard (Some word))).
Proof.
intros s. split; [discriminate|]. split; [vm_compute; reflexivity|].
apply (session_word_valid ["SUN"; "MOON"] (λ _, "0.i") (λ _, insertion_sort_3)
         [ClickStart; ClickNext] (world_of [draw_half; draw_max])).
discriminate.
Defined.

(* ===================================================================== *)
(** ** Who sees what                                                       *)
(* ===================================================================== *)

Lemma card_of_seat_impostor (s : AppState) (i : Z) :
  card_of_seat s i = ImpostorCard <-> Some i ∈ impostorIndices s.
Proof.
unfold card_of_seat, card, includes. cbn.
destruct (bool_decide (Some i ∈ impostorIndices s)) eqn:Hb.
- apply bool_decide_eq_true in Hb. tauto.
- apply bool_decide_eq_false in Hb. split; [discriminate|contradiction].
Qed.

Lemma card_of_seat_word (s : AppState) (i : Z) :
  card_of_seat s i = WordCard (currentWord s) <-> card_of_seat s i <> ImpostorCard.
Proof.
unfold card_of_seat, card. cbn.
destruct (includes (impostorIndices s) i); split; congruence.
Qed.

(** A sound assignment splits the seats: as many seats see the impostor
    card as positions are stored, every other seat sees the word. *)
Lemma seats_of_assignment (s : AppState) :
  assignment_ok s ->
  let n := len (players s) in
  let impostor_seats := filter (λ i, card_of_seat s i = ImpostorCard) (seqZ 0 n) in
  let word_seats := filter (λ i, card_of_seat s i = WordCard (currentWord s)) (seqZ 0 n) in
  len impostor_seats = len (impostorIndices s) /\
  1 <= len impostor_seats <= n - 1 /\
  len word_seats = n - len impostor_seats.
Proof.
intros (P & HP & Hnd & Hin & Hlen) n impostor_seats word_seats.
assert (Hperm : impostor_seats ≡ₚ P).
{ apply NoDup_Permutation; [apply NoDup_filter, NoDup_seqZ|exact Hnd|].
  intros i. unfold impostor_seats. rewrite list_elem_of_filter, card_of_seat_impostor, HP.
  rewrite elem_of_seqZ. split.
  - intros [Hi _]. apply list_elem_of_fmap in Hi as (j & Hj & Hi). congruence.
  - intros Hi. split; [apply list_elem_of_fmap_2, Hi|]. specialize (Hin i Hi). lia. }
assert (Hl1 : len impostor_seats = len P) by (unfold len; rewrite Hperm; reflexivity).
assert (Hl2 : len (impostorIndices s) = len P).
{ unfold len. rewrite HP, length_fmap. reflexivity. }
split; [congruence|]. split; [lia|].
assert (Hw : word_seats = filter (λ i, ~ card_of_seat s i = ImpostorCard) (seqZ 0 n)).
{ apply list_filter_iff. intros i. apply card_of_seat_word. }
pose proof (filter_app_complement (λ i, card_of_seat s i = ImpostorCard) (seqZ 0 n)) as Hc.
apply Permutation_length in Hc. rewrite length_app, length_seqZ in Hc.
fold impostor_seats in Hc. rewrite <- Hw in Hc.
pose proof (len_players_nonneg := Nat2Z.is_nonneg (length (players s))).
unfold len in *. fold n in Hlen. lia.
Qed.

(* ===================================================================== *)
(** ** The phase machine, the round counter and the confetti               *)
(* ===================================================================== *)

Lemma vibrate_confetti (ms : Z) (w : World) :
  count_confetti (effects (snd (vibrate ms w))) = count_confetti (effects w).
Proof.
unfold vibrate, emit. destruct (can_vibrate w); [|reflexivity].
cbn [snd effects]. unfold count_confetti. rewrite filter_app. cbn.
destruct (decide (Vibrate ms = Confetti)) as [Heq|_]; [discriminate Heq|].
rewrite app_nil_r. reflexivity.
Qed.

Lemma run_plan_effects {A} (p : SortPlan) :
  forall (items : list A) (w : World),
    effects (snd (run_plan random_comparator p items w)) = effects w.
Proof.
induction p as [|a b next IH|a b neg IHn zero IHz pos IHp]; intros items w.
- reflexivity.
- cbn [run_plan]. apply IH.
- rewrite random_comparator_branch.
  destruct (_ <? 0); [rewrite IHn; reflexivity|].
  destruct (_ =? 0); [rewrite IHz|rewrite IHp]; reflexivity.
Qed.

Lemma startGame_confetti (WORDS : list string) (s : AppState) (w : World) :
  count_confetti (effects (snd (startGame WORDS s w))) = count_confetti (effects w).
Proof.
rewrite startGame_effects, count_confetti_app.
destruct (can_vibrate w);
  [change (count_confetti [Vibrate 50]) with 0%nat
  |change (count_confetti []) with 0%nat]; lia.
Qed.

Section Progress.

Variable WORDS : list string.
Variable toString36 : unit_double -> string.
Variable engine_sort : nat -> SortPlan.

(** What one event does to the phase, the round counter and the number
    of confetti fired. *)
Lemma dispatch_progress (e : Event) (s : AppState) (w : World) :
  let s' := fst (dispatch WORDS toString36 engine_sort e s w) in
  let w' := snd (dispatch WORDS toString36 engine_sort e s w) in
  (e = ClickStart /\ gameState s = setup /\ 3 <= len (players s) /\
   gameState s' = playing /\ round s' = round s /\
   count_confetti (effects w') = count_confetti (effects w)) \/
  (e = ClickNext /\ gameState s = playing /\
   len (players s) - 1 <= currentPlayerIndex s /\
   gameState s' = finished /\ round s' = round s /\
   count_confetti (effects w') = S (count_confetti (effects w))) \/
  (e = ClickNewRound /\ gameState s = finished /\
   gameState s' = playing /\ round s' = round s + 1 /\
   count_confetti (effects w') = count_confetti (effects w)) \/
  (e = ClickBackToStart /\ gameState s = finished /\
   gameState s' = setup /\ round s' = round s /\
   count_confetti (effects w') = count_confetti (effects w)) \/
  (gameState s' = gameState s /\ round s' = round s /\
   count_confetti (effects w') = count_confetti (effects w)).
Proof.
intros s' w'. subst s' w'. unfold dispatch.
destruct (rendered s e) eqn:Hr; [|do 4 right; done].
pose proof (rendered_setup s e Hr) as Hph.
destruct e; try contradiction; cbn [handler]; io_run;
  try (do 4 right; done).
- (* ClickShuffle *)
  do 4 right. unfold shufflePlayers. io_run.
  split; [reflexivity|]. split; [reflexivity|].
  rewrite vibrate_confetti, run_plan_effects. reflexivity.
- (* ClickRemove *)
  do 4 right. destruct (removePlayer_gameState i s) as (Hg & _ & Hro). done.
- (* ClickAdd *)
  do 4 right. unfold addPlayer. destruct (truthy _); io_run; done.
- (* ClickStart *)
  left. cbn [rendered] in Hr. apply andb_prop in Hr as [_ Hlen].
  apply negb_true_iff, Z.ltb_ge in Hlen.
  destruct (startGame_fields WORDS s w) as (Hg & _ & _ & _ & _ & _ & Hro).
  rewrite Hg, Hro, startGame_confetti.
  destruct (decide (gameState s = finished)); [congruence|done].
- (* PointerDown *)
  do 4 right. unfold onPointerDown. io_run. rewrite vibrate_confetti. done.
- (* ClickNext *)
  destruct (Z.ltb_spec (currentPlayerIndex s) (len (players s) - 1)) as [Hlt|Hge].
  + do 4 right. rewrite nextPlayer_intermediate by exact Hlt. done.
  + right. left. rewrite nextPlayer_last by exact Hge. cbn [fst snd effects].
    rewrite count_confetti_app. change (count_confetti [Confetti]) with 1%nat.
    repeat split; try done. lia.
- (* ClickNewRound *)
  right. right. left.
  destruct (startGame_fields WORDS s w) as (Hg & _ & _ & _ & _ & _ & Hro).
  rewrite Hg, Hro, startGame_confetti.
  destruct (decide (gameState s = finished)); [done|contradiction].
- (* ClickBackToStart *)
  do 3 right. left. done.
Qed.

End Progress.

(** X12. The phase machine.  An event leaves the phase where it is unless
    it is one of four: the start button in Setup on a roster of three or
    more (to Playing), the advance on the last seat in Playing (to
    Finished), the new-round button in Finished (to Playing) or the
    back-to-start button in Finished (to Setup).  Each of the four, in its
    phase, does make its move. *)
Theorem phase_machine (WORDS : list string) (toString36 : unit_double -> string)
    (engine_sort : nat -> SortPlan) (e : Event) (s : AppState) (w : World) :
  let s' := fst (dispatch WORDS toString36 engine_sort e s w) in
  (gameState s' = gameState s \/
   (e = ClickStart /\ gameState s = setup /\ 3 <= len (players s) /\
    gameState s' = playing) \/
   (e = ClickNext /\ gameState s = playing /\
    len (players s) - 1 <= currentPlayerIndex s /\ gameState s' = finished) \/
   (e = ClickNewRound /\ gameState s = finished /\ gameState s' = playing) \/
   (e = ClickBackToStart /\ gameState s = finished /\ gameState s' = setup)) /\
  (e = ClickStart -> gameState s = setup -> 3 <= len (players s) ->
   gameState s' = playing) /\
  (e = ClickNext -> gameState s = playing ->
   len (players s) - 1 <= currentPlayerIndex s -> gameState s' = finished) /\
  (e = ClickNewRound -> gameState s = finished -> gameState s' = playing) /\
  (e = ClickBackToStart -> gameState s = finished -> gameState s' = setup).
Proof.
intros s'. split; [|split; [|split; [|split]]].
- destruct (dispatch_progress WORDS toString36 engine_sort e s w)
    as [H|[H|[H|[H|H]]]]; fold s' in H; tauto.
- intros -> Hs Hn. subst s'. unfold dispatch. cbn [rendered].
  rewrite bool_decide_eq_true_2 by exact Hs.
  destruct (Z.ltb_spec (len (players s)) 3); [lia|]. cbn [negb andb handler].
  apply startGame_fields.
- intros -> Hs Hi. subst s'. unfold dispatch. cbn [rendered].
  rewrite bool_decide_eq_true_2 by exact Hs. cbn [handler].
  rewrite nextPlayer_last by exact Hi. reflexivity.
- intros -> Hs. subst s'. unfold dispatch. cbn [rendered].
  rewrite bool_decide_eq_true_2 by exact Hs. cbn [handler].
  apply startGame_fields.
- intros -> Hs. subst s'. unfold dispatch. cbn [rendered].
  rewrite bool_decide_eq_true_2 by exact Hs. reflexivity.
Qed.

Lemma dispatch_all_progress (WORDS : list string) (toString36 : unit_double -> string)
    (engine_sort : nat -> SortPlan) (es : list Event) :
  forall (s : AppState) (w : World) (c : Z),
    let s' := fst (dispatch_all WORDS toString36 engine_sort es s w) in
    let w' := snd (dispatch_all WORDS toString36 engine_sort es s w) in
    (rounds_completed s <= Z.of_nat (count_confetti (effects w)) - c ->
     rounds_completed s' <= Z.of_nat (count_confetti (effects w')) - c) /\
    (ClickBackToStart ∉ es ->
     rounds_completed s = Z.of_nat (count_confetti (effects w)) - c ->
     rounds_completed s' = Z.of_nat (count_confetti (effects w')) - c).
Proof.
induction es as [|e es IH]; intros s w c; [done|].
cbn [dispatch_all]. rewrite fst_bind, snd_bind.
set (s1 := fst (dispatch WORDS toString36 engine_sort e s w)).
set (w1 := snd (dispatch WORDS toString36 engine_sort e s w)).
destruct (IH s1 w1 c) as [IHle IHeq].
pose proof (dispatch_progress WORDS toString36 engine_sort e s w) as Hstep.
fold s1 w1 in Hstep. unfold rounds_completed in *.
split.
- intros Hle. apply IHle.
  destruct Hstep as [H|[H|[H|[H|H]]]];
    repeat match goal with H : _ /\ _ |- _ => destruct H end;
    repeat match goal with
           | H : gameState _ = _ |- _ => rewrite H in *
           end;
    repeat case_decide; try congruence; lia.
- intros Hnot Heq. apply not_elem_of_cons in Hnot as [Hne Hnot].
  apply (IHeq Hnot).
  destruct Hstep as [H|[H|[H|[H|H]]]];
    repeat match goal with H : _ /\ _ |- _ => destruct H end;
    try congruence;
    repeat match goal with
           | H : gameState _ = _ |- _ => rewrite H in *
           end;
    repeat case_decide; try congruence; lia.
Qed.

(* ===================================================================== *)
(** ** The mode and the hold button across a session                       *)
(* ===================================================================== *)

Section ModeAndHold.

Variable WORDS : list string.
Variable toString36 : unit_double -> string.
Variable engine_sort : nat -> SortPlan.

Lemma dispatch_mode (e : Event) (s : AppState) (w : World) :
  (forall m, e <> ClickMode m) ->
  gameMode (fst (dispatch WORDS toString36 engine_sort e s w)) = gameMode s.
Proof.
intros Hne. unfold dispatch. destruct (rendered s e); [|reflexivity].
destruct e; cbn [handler]; io_run; try reflexivity.
- unfold shufflePlayers. io_run. reflexivity.
- unfold removePlayer. destruct (_ <? _); reflexivity.
- unfold addPlayer. destruct (truthy _); io_run; reflexivity.
- exfalso. apply (Hne m). reflexivity.
- apply startGame_fields.
- unfold onPointerDown. io_run. reflexivity.
- unfold nextPlayer. destruct (_ <? _); io_run; reflexivity.
- apply startGame_fields.
- unfold handleDragEnd.
  destruct (_ || _); io_run; [reflexivity|]. destruct (_ || _); io_run; reflexivity.
Qed.

Lemma dispatch_all_mode (es : list Event) :
  forall (s : AppState) (w : World),
    (forall m, ClickMode m ∉ es) ->
    gameMode (fst (dispatch_all WORDS toString36 engine_sort es s w)) = gameMode s.
Proof.
induction es as [|e es IH]; intros s w Hne; [reflexivity|].
cbn [dispatch_all]. rewrite fst_bind. rewrite IH.
- apply dispatch_mode. intros m ->. apply (Hne m). left.
- intros m Hin. apply (Hne m). right. exact Hin.
Qed.

Lemma dispatch_pressed (e : Event) (s : AppState) (w : World) :
  isPressed (fst (dispatch WORDS toString36 engine_sort e s w)) = true ->
  isPressed s = true \/ e = PointerDown.
Proof.
unfold dispatch. destruct (rendered s e); [|tauto].
destruct e; cbn [handler]; io_run; try tauto.
- unfold shufflePlayers. io_run. tauto.
- unfold removePlayer. destruct (3 <? len (players s)); tauto.
- unfold addPlayer. destruct (truthy _); io_run; tauto.
- intros H. destruct (startGame_fields WORDS s w) as (_ & _ & _ & Hp & _). congruence.
- discriminate.
- discriminate.
- unfold nextPlayer.
  destruct (currentPlayerIndex s <? len (players s) - 1); io_run;
    [discriminate|tauto].
- intros H. destruct (startGame_fields WORDS s w) as (_ & _ & _ & Hp & _). congruence.
- unfold handleDragEnd.
  destruct (_ || _); io_run; [tauto|]. destruct (_ || _); io_run; tauto.
Qed.

Lemma dispatch_all_pressed (es : list Event) :
  forall (s : AppState) (w : World),
    PointerDown ∉ es -> isPressed s = false ->
    isPressed (fst (dispatch_all WORDS toString36 engine_sort es s w)) = false.
Proof.
induction es as [|e es IH]; intros s w Hne Hp; [exact Hp|].
apply not_elem_of_cons in Hne as [Hne Hnot].
cbn [dispatch_all]. rewrite fst_bind. apply (IH _ _ Hnot).
destruct (isPressed (fst (dispatch WORDS toString36 engine_sort e s w))) eqn:Hp';
  [|reflexivity].
destruct (dispatch_pressed e s w Hp') as [H|H]; congruence.
Qed.

End ModeAndHold.

(** A full round and a return to the start, no mode button touched. *)
Lemma no_mode_click_round :
  no_mode_click [ClickStart; ClickNext; ClickNext; ClickNext; ClickNewRound;
                 ClickNext; ClickNext; ClickNext; ClickBackToStart; ClickStart].
Proof.
intros m Hin. repeat (apply elem_of_cons in Hin as [Hin|Hin]; [discriminate Hin|]).
inversion Hin.
Qed.

(** X14. The mode is the user's: through any run of events without a
    click on a mode button the mode stays what it was, across round
    starts, advances, new rounds and the return to the start, which
    resets the roster but not the mode. *)
Theorem mode_persists (WORDS : list string) (toString36 : unit_double -> string)
    (engine_sort : nat -> SortPlan) (es : list Event) (s : AppState) (w : World) :
  no_mode_click es ->
  gameMode (fst (dispatch_all WORDS toString36 engine_sort es s w)) = gameMode s.
Proof. intros Hne. apply dispatch_all_mode, Hne. Qed.

Lemma mode_persists_witness :
  let es := [ClickStart; ClickNext; ClickNext; ClickNext; ClickNewRound;
             ClickNext; ClickNext; ClickNext; ClickBackToStart; ClickStart] in
  let s := setGameMode uncertainty initial_state in
  no_mode_click es /\
  gameState (fst (dispatch_all ["SUN"] (λ _, "0.i") (λ _, insertion_sort_3) es s
                    (world_of []))) = playing /\
  gameMode (fst (dispatch_all ["SUN"] (λ _, "0.i") (λ _, insertion_sort_3) es s
                   (world_of []))) = uncertainty.
Proof.
intros es s. split; [exact no_mode_click_round|].
split; [vm_compute; reflexivity|].
apply (mode_persists ["SUN"] (λ _, "0.i") (λ _, insertion_sort_3) es s (world_of [])
         no_mode_click_round).
Defined.

(** X15. The card is face up only while the hold button is down: in a
    session without a press the pressed flag is false and the card hidden
    in every state reached, and whatever the session, an event after
    which the flag is true is a press or found it true. *)
Theorem card_needs_hold (WORDS : list string) (toString36 : unit_double -> string)
    (engine_sort : nat -> SortPlan) (es : list Event) (w : World) :
  (PointerDown ∉ es) ->
  let s := fst (session WORDS toString36 engine_sort es w) in
  isPressed s = false /\ card s = Hidden /\
  (forall (e : Event) (t : AppState) (v : World),
     isPressed (fst (dispatch WORDS toString36 engine_sort e t v)) = true ->
     isPressed t = true \/ e = PointerDown).
Proof.
intros Hne s.
assert (Hp : isPressed s = false).
{ apply dispatch_all_pressed; [exact Hne|reflexivity]. }
split; [exact Hp|]. split; [unfold card; rewrite Hp; reflexivity|].
intros e t v. apply dispatch_pressed.
Qed.

Lemma card_needs_hold_witness :
  let es := [ClickStart; ClickNext; PointerUp; ClickNext] in
  (PointerDown ∉ es) /\
  gameState (fst (session ["SUN"] (λ _, "0.i") (λ _, insertion_sort_3) es
                    (world_of []))) = playing /\
  card (fst (session ["SUN"] (λ _, "0.i") (λ _, insertion_sort_3) es
               (world_of []))) = Hidden.
Proof.
intros es.
assert (Hne : PointerDown ∉ es).
{ intros Hin. repeat (apply elem_of_cons in Hin as [Hin|Hin]; [discriminate Hin|]).
  inversion Hin. }
split; [exact Hne|]. split; [vm_compute; reflexivity|].
apply (card_needs_hold ["SUN"] (λ _, "0.i") (λ _, insertion_sort_3) es (world_of []) Hne).
Defined.

(* ===================================================================== *)
(** ** The roster under every event                                        *)
(* ===================================================================== *)

Lemma default_players_sound :
  NoDup (id <$> default_players) /\ 3 <= len default_players.
Proof.
split; [apply (bool_decide_unpack _); vm_compute; exact I|].
vm_compute. discriminate.
Qed.

(** X16. The roster floor and the distinctness of identifiers are kept
    by every event but one.  On a roster of at least three players with
    distinct identifiers, every event leaves at least three players, and
    leaves their identifiers distinct unless it is an add whose drawn
    identifier is already carried by a player: the unchecked draw of
    [addPlayer] is the only way two players come to share one. *)
Theorem roster_kept_sound (WORDS : list string) (toString36 : unit_double -> string)
    (engine_sort : nat -> SortPlan) (e : Event) (s : AppState) (w : World) :
  NoDup (id <$> players s) ->
  3 <= len (players s) ->
  let s' := fst (dispatch WORDS toString36 engine_sort e s w) in
  let drawn := String.substring 2 9 (toString36 (random_source w 0%nat)) in
  3 <= len (players s') /\
  (e <> ClickAdd \/ drawn ∉ id <$> players s -> NoDup (id <$> players s')).
Proof.
intros Hnd Hlen s' drawn. subst s'. unfold dispatch.
destruct (rendered s e); [|done].
destruct e; cbn [handler]; io_run; try done.
- (* ClickShuffle *)
  unfold shufflePlayers. io_run. cbn [players setPlayers].
  pose proof (run_plan_Permutation random_comparator
                (engine_sort (length (players s))) (players s) w) as Hp.
  split; [unfold len in *; rewrite Hp; exact Hlen|].
  intros _. rewrite Hp. exact Hnd.
- (* ChangeName *)
  rewrite updatePlayerName_players.
  split; [unfold len in *; rewrite length_fmap; exact Hlen|].
  intros _. rewrite <- list_fmap_compose.
  rewrite (list_fmap_ext (id ∘ renamed i text) id (players s)); [exact Hnd|].
  intros k p _. apply renamed_id.
- (* ClickRemove *)
  destruct (removePlayer_invariant i s Hnd Hlen) as [Hnd' Hlen']. done.
- (* ClickAdd *)
  unfold addPlayer. destruct (truthy _); io_run; [|done].
  cbn [players setPlayers setNewPlayerName random_source Math_random fst].
  split; [unfold len in *; rewrite length_app; cbn; lia|].
  intros [Hne|Hfresh]; [congruence|].
  rewrite fmap_app. apply NoDup_app. split; [exact Hnd|].
  split; [|apply NoDup_singleton].
  intros j Hj Hj'. cbn in Hj'. apply list_elem_of_singleton in Hj'. subst j.
  apply Hfresh, Hj.
- (* ClickStart *)
  destruct (startGame_fields WORDS s w) as (_ & _ & _ & _ & Hp & _).
  rewrite Hp. done.
- (* PointerDown *)
  unfold onPointerDown. io_run. done.
- (* ClickNext *)
  unfold nextPlayer.
  destruct (currentPlayerIndex s <? len (players s) - 1); io_run; done.
- (* ClickNewRound *)
  destruct (startGame_fields WORDS s w) as (_ & _ & _ & _ & Hp & _).
  rewrite Hp. done.
- (* ClickBackToStart *)
  cbn [players resetGame setPlayers]. destruct default_players_sound. done.
- (* DragEnd *)
  unfold handleDragEnd.
  destruct (_ || _); io_run; [done|]. destruct (_ || _); io_run; done.
Qed.

Lemma roster_kept_sound_witness :
  let s := setNewPlayerName "Ana" five_players in
  let w := world_of [draw_half] in
  NoDup (id <$> players s) /\
  3 <= len (players s) /\
  id <$> players (fst (dispatch ["SUN"] (λ _, "0.i") (λ _, insertion_sort_3) ClickAdd s w))
    = ["1"; "2"; "3"; "a"; "b"; "i"] /\
  3 <= len (players (fst (dispatch ["SUN"] (λ _, "0.i") (λ _, insertion_sort_3)
                            ClickAdd s w))).
Proof.
intros s w.
assert (Hnd : NoDup (id <$> players s)).
{ apply (bool_decide_unpack _). vm_compute. exact I. }
split; [exact Hnd|]. split; [vm_compute; discriminate|].
split; [vm_compute; reflexivity|].
apply (roster_kept_sound ["SUN"] (λ _, "0.i") (λ _, insertion_sort_3) ClickAdd s w Hnd).
vm_compute; discriminate.
Defined.

(* ===================================================================== *)
(** ** Round start under the roster floor                                  *)
(* ===================================================================== *)

(** On a roster of one or two players both modes store one impostor: in
    the uncertainty mode the head count is [floor (u * (n - 1)) + 1] with
    [n - 1] at most one. *)
Lemma startGame_one_impostor (WORDS : list string) (s : AppState) (w : World) :
  1 <= len (players s) <= 2 ->
  exists j, 0 <= j < len (players s) /\
            impostorIndices (fst (startGame WORDS s w)) = [Some j].
Proof.
intros Hn. destruct (gameMode s) eqn:Hm.
- destruct (startGame_classic WORDS s w Hm) as [Hi _].
  eexists. split; [|exact Hi]. apply floor_mul_range. lia.
- set (n := len (players s)) in *.
  assert (Hk : floor_mul (random_source w 0%nat) (n - 1) = 0).
  { destruct (Z.eq_dec n 1) as [->|Hne]; [reflexivity|].
    pose proof (floor_mul_range (random_source w 0%nat) (n - 1) ltac:(lia)). lia. }
  unfold startGame. rewrite Hm. io_run.
  change (fst (Math_random w)) with (random_source w 0%nat). fold n. rewrite Hk.
  change (Z.to_nat (0 + 1)) with 1%nat.
  match goal with
  | |- context [draw_impostors 1 (seqZ 0 n) [] ?w0] => set (w1 := w0)
  end.
  assert (Hc : (1 <= length (seqZ 0 n))%nat) by (rewrite length_seqZ; lia).
  pose proof (draw_impostors_spec 1 (seqZ 0 n) [] w1 Hc) as (H1 & _).
  assert (Hp : exists j, 0 <= j < n /\
                 pool_draws 1 (seqZ 0 n) (random_source w1) = [j]).
  { cbn [pool_draws].
    assert (Hl : len (seqZ 0 n) = n) by (unfold len; rewrite length_seqZ; lia).
    rewrite Hl.
    pose proof (floor_mul_range (random_source w1 0%nat) n ltac:(lia)) as Hr.
    set (j := floor_mul (random_source w1 0%nat) n) in *.
    exists j. split; [exact Hr|].
    rewrite (lookup_seqZ_lt 0 n (Z.to_nat j)) by lia.
    f_equal. lia. }
  destruct Hp as (j & Hj & Hp). exists j. split; [exact Hj|].
  rewrite H1, Hp. destruct (decide (gameState s = finished)); reflexivity.
Qed.

(** X17. Round start under the roster floor.  [startGame] checks the
    length of the roster nowhere.  With one player that player is the
    impostor in both modes and is shown the impostor card, so nobody
    sees the word; with two players exactly one of the two seats is
    stored, in both modes; with none the classic mode still stores seat
    0, which names no player, and the title of the Playing panel reads
    the name of an undefined player. *)
Theorem startGame_small_roster (WORDS : list string) (s : AppState) (w : World) :
  let s' := fst (startGame WORDS s w) in
  (len (players s) = 1 ->
     impostorIndices s' = [Some 0] /\ card_of_seat s' 0 = ImpostorCard) /\
  (len (players s) = 2 ->
     exists j, 0 <= j < 2 /\ impostorIndices s' = [Some j]) /\
  (len (players s) = 0 -> gameMode s = classic ->
     impostorIndices s' = [Some 0] /\ turn_name s' = None).
Proof.
intros s'. subst s'. split; [|split].
- intros Hn.
  destruct (startGame_one_impostor WORDS s w ltac:(lia)) as (j & Hj & Hi).
  assert (j = 0) by lia. subst j. split; [exact Hi|].
  unfold card_of_seat, card, includes. cbn. rewrite Hi.
  rewrite bool_decide_eq_true_2; [reflexivity|]. apply list_elem_of_singleton. reflexivity.
- intros Hn.
  destruct (startGame_one_impostor WORDS s w ltac:(lia)) as (j & Hj & Hi).
  exists j. split; [lia|exact Hi].
- intros Hn Hm.
  destruct (startGame_classic WORDS s w Hm) as [Hi _].
  destruct (startGame_fields WORDS s w) as (_ & Hc & _ & _ & Hp & _).
  split; [rewrite Hi, Hn; reflexivity|].
  unfold turn_name. rewrite Hc, Hp.
  destruct (players s); [reflexivity|]. unfold len in Hn. simpl in Hn. lia.
Qed.

(* ===================================================================== *)
(** ** Exit animations: stale closures and the patient user                *)
(* ===================================================================== *)

Ltac io_cases :=
  unfold mbind, mret, IO_bind, IO_ret, vibrate, confetti, emit, Math_random;
  repeat match goal with
         | |- context [let '(_, _) := ?m in _] => destruct m
         | |- context [if can_vibrate ?w then _ else _] => destruct (can_vibrate w)
         end;
  try reflexivity.

Section LiveFacts.

Variable WORDS : list string.
Variable toString36 : unit_double -> string.
Variable engine_sort : nat -> SortPlan.

Lemma apply_updates_app (us1 us2 : list Update) (s : AppState) :
  apply_updates (us1 ++ us2) s = apply_updates us2 (apply_updates us1 s).
Proof. apply foldl_app. Qed.

Lemma calls_bind {A} (m : IO A) (f : A -> IO AppState)
    (g : A -> IO (list Update)) (s : AppState) (w : World) :
  (forall (a : A) (w' : World),
     f a w' = (apply_updates (fst (g a w')) s, snd (g a w'))) ->
  (m ≫= f) w = (apply_updates (fst ((m ≫= g) w)) s, snd ((m ≫= g) w)).
Proof. intros H. unfold mbind, IO_bind. destruct (m w) as [a w']. apply H. Qed.

(** A handler whose closure is of the current render: reading and
    writing the same state, as [handler] has it. *)
Lemma calls_fresh (e : Event) (s : AppState) (w : World) :
  handler WORDS toString36 engine_sort e s w =
  (apply_updates (fst (calls WORDS toString36 engine_sort e s w)) s,
   snd (calls WORDS toString36 engine_sort e s w)).
Proof.
destruct e; cbn [handler calls]; try reflexivity.
- unfold shufflePlayers. io_cases.
- unfold removePlayer. destruct (3 <? len (players s)); reflexivity.
- unfold addPlayer. destruct (truthy _); io_cases.
- unfold startGame. apply calls_bind. intros indices w1.
  apply calls_bind. intros u w2. apply calls_bind. intros _ w3.
  generalize (index WORDS (floor_mul u (len WORDS))). intros word.
  unfold mret, IO_ret. cbn [fst snd]. f_equal.
  destruct (decide (gameState s = finished)); destruct s; vm_compute; reflexivity.
- unfold onPointerDown. io_cases.
- unfold nextPlayer. destruct (_ <? _); io_cases.
- unfold startGame. apply calls_bind. intros indices w1.
  apply calls_bind. intros u w2. apply calls_bind. intros _ w3.
  generalize (index WORDS (floor_mul u (len WORDS))). intros word.
  unfold mret, IO_ret. cbn [fst snd]. f_equal.
  destruct (decide (gameState s = finished)); destruct s; vm_compute; reflexivity.
- unfold handleDragEnd. destruct (_ || _); [io_cases|].
  destruct (_ || _); io_cases.
Qed.

Lemma live_rendered_settled (s : AppState) (e : Event) :
  live_rendered (mk_screen s None) e = rendered s e.
Proof. destruct e; reflexivity. Qed.

(** On a settled screen an event does what [dispatch] says, and a
    change of phase sets a panel with an [exit] prop leaving. *)
Lemma deliver_settled (e : Event) (s : AppState) (w : World) :
  deliver WORDS toString36 engine_sort e (mk_screen s None) w =
  (mk_screen (fst (dispatch WORDS toString36 engine_sort e s w))
     (if has_exit (gameState s)
         && negb (bool_decide
                    (gameState (fst (dispatch WORDS toString36 engine_sort e s w))
                     = gameState s))
      then Some s else None),
   snd (dispatch WORDS toString36 engine_sort e s w)).
Proof.
unfold deliver, dispatch. rewrite live_rendered_settled.
destruct (rendered s e).
- rewrite calls_fresh. cbn [on_screen current leaving default fst snd].
  unfold mbind, IO_bind, mret, IO_ret.
  destruct (calls WORDS toString36 engine_sort e s w) as [us w']. reflexivity.
- cbn [fst snd]. rewrite bool_decide_eq_true_2 by reflexivity.
  rewrite andb_false_r. reflexivity.
Qed.

Lemma run_app (ins1 ins2 : list Input) (scr : Screen) (w : World) :
  run WORDS toString36 engine_sort (ins1 ++ ins2) scr w =
  run WORDS toString36 engine_sort ins2
    (fst (run WORDS toString36 engine_sort ins1 scr w))
    (snd (run WORDS toString36 engine_sort ins1 scr w)).
Proof.
revert scr w. induction ins1 as [|i ins1 IH]; intros scr w; [reflexivity|].
cbn [run app]. unfold mbind, IO_bind.
destruct (step WORDS toString36 engine_sort i scr w) as [scr' w']. apply IH.
Qed.

(** The patient user's session is the session of the settled model. *)
Lemma run_patient (es : list Event) :
  forall (s : AppState) (w : World),
    run WORDS toString36 engine_sort (patient es) (mk_screen s None) w =
    (mk_screen (fst (dispatch_all WORDS toString36 engine_sort es s w)) None,
     snd (dispatch_all WORDS toString36 engine_sort es s w)).
Proof.
induction es as [|e es IH]; intros s w; [reflexivity|].
change (patient (e :: es)) with ([User e; ExitComplete] ++ patient es).
rewrite run_app. cbn [run step]. unfold mbind at 1 2 3 4, IO_bind.
rewrite deliver_settled. cbn [fst snd current]. unfold mret at 1 2, IO_ret.
cbn [fst snd]. rewrite IH. cbn [dispatch_all]. rewrite fst_bind, snd_bind.
reflexivity.
Qed.

End LiveFacts.

Lemma live_patient (WORDS : list string) (toString36 : unit_double -> string)
    (engine_sort : nat -> SortPlan) (es : list Event) (w : World) :
  live_session WORDS toString36 engine_sort (patient es) w =
  (mk_screen (fst (session WORDS toString36 engine_sort es w)) None,
   snd (session WORDS toString36 engine_sort es w)).
Proof. apply run_patient. Qed.

(* ===================================================================== *)
(** ** Events outside the Playing phase                                    *)
(* ===================================================================== *)

Section LeavingPanel.

Variable WORDS : list string.
Variable toString36 : unit_double -> string.
Variable engine_sort : nat -> SortPlan.

Lemma setGameState_same (s : AppState) : setGameState (gameState s) s = s.
Proof. destruct s. reflexivity. Qed.

(** An event on a panel that is leaving does not move the phase: the
    Setup panel can only start the round that is already started, the
    Playing panel, on its last seat, only finish the round that is
    already finished. *)
Lemma stale_gameState (e : Event) (c s : AppState) (w : World) :
  leaving_ok (mk_screen s (Some c)) ->
  live_rendered (mk_screen s (Some c)) e = true ->
  gameState (apply_updates (fst (calls WORDS toString36 engine_sort e c w)) s)
  = gameState s.
Proof.
unfold leaving_ok. cbn [leaving current]. intros Hok Hr.
destruct e; cbn [live_rendered on_screen leaving current default] in Hr;
  try (pose proof (rendered_setup c _ Hr) as Hph; cbn beta iota in Hph);
  cbn [calls]; io_run; try reflexivity.
- (* ClickRemove *) destruct (3 <? len (players c)); reflexivity.
- (* ClickAdd *) destruct (truthy _); io_run; reflexivity.
- (* ClickStart *)
  destruct Hok as [[_ Hs]|[Hc _]]; [|congruence].
  rewrite apply_updates_app.
  destruct (decide (gameState c = finished)); cbn; congruence.
- (* ClickNext *)
  destruct Hok as [[Hc _]|(_ & Hs & Hlast)]; [congruence|].
  destruct (Z.ltb_spec (currentPlayerIndex c) (len (players c) - 1)); [lia|].
  io_run. cbn. congruence.
- (* ClickNewRound *)
  destruct Hok as [[Hc _]|[Hc _]]; congruence.
- (* ClickBackToStart *)
  destruct Hok as [[Hc _]|[Hc _]]; congruence.
- (* DragEnd *) discriminate Hr.
Qed.

(** While a panel is leaving, an event on it runs the handler of the
    frozen render, and the panel goes on leaving. *)
Lemma deliver_leaving (e : Event) (c s : AppState) (w : World) :
  deliver WORDS toString36 engine_sort e (mk_screen s (Some c)) w =
  if live_rendered (mk_screen s (Some c)) e
  then (mk_screen (apply_updates (fst (calls WORDS toString36 engine_sort e c w)) s)
          (Some c),
        snd (calls WORDS toString36 engine_sort e c w))
  else (mk_screen s (Some c), w).
Proof.
unfold deliver. destruct (live_rendered _ e); [|reflexivity].
change (on_screen (mk_screen s (Some c))) with c. cbn [current leaving].
unfold mbind, IO_bind, mret, IO_ret.
destruct (calls WORDS toString36 engine_sort e c w). reflexivity.
Qed.

Lemma deliver_leaving_ok (e : Event) (scr : Screen) (w : World) :
  leaving_ok scr ->
  leaving_ok (fst (deliver WORDS toString36 engine_sort e scr w)).
Proof.
destruct scr as [s [c|]]; intros Hok.
- rewrite deliver_leaving.
  destruct (live_rendered (mk_screen s (Some c)) e) eqn:Hr; [|exact Hok].
  cbn [fst]. unfold leaving_ok. cbn [leaving current].
  rewrite (stale_gameState e c s w Hok Hr). exact Hok.
- rewrite deliver_settled. cbn [fst]. unfold leaving_ok. cbn [leaving current].
  destruct (has_exit (gameState s)) eqn:Hx; [|exact I].
  destruct (bool_decide _) eqn:Hb; [exact I|].
  apply bool_decide_eq_false in Hb. cbn [andb negb].
  destruct (dispatch_progress WORDS toString36 engine_sort e s w)
    as [H|[H|[H|[H|H]]]].
  + left. tauto.
  + right. tauto.
  + destruct H as (_ & Hf & _). rewrite Hf in Hx. discriminate Hx.
  + destruct H as (_ & Hf & _). rewrite Hf in Hx. discriminate Hx.
  + destruct H as (Hg & _). contradiction.
Qed.

Lemma run_leaving_ok (ins : list Input) :
  forall (scr : Screen) (w : World),
    leaving_ok scr ->
    leaving_ok (fst (run WORDS toString36 engine_sort ins scr w)).
Proof.
induction ins as [|i ins IH]; intros scr w Hok; [exact Hok|].
cbn [run]. rewrite fst_bind. apply IH.
destruct i as [e|]; cbn [step]; [apply deliver_leaving_ok, Hok|exact I].
Qed.

Lemma live_leaving_ok (ins : list Input) (w : World) :
  leaving_ok (fst (live_session WORDS toString36 engine_sort ins w)).
Proof. apply run_leaving_ok. exact I. Qed.

End LeavingPanel.

(** C8, as stated, fails, on the handlers and through the view.  None of
    the handlers looks at the phase: called in Setup, [nextPlayer] moves
    the pointer, the hold handler sets pressed and the drag handler sets
    revealed; called again in Finished, [nextPlayer] fires the confetti a
    second time.  And the view does call them outside Playing: while the
    Playing panel animates out after the last tap on next, the phase is
    Finished and the panel's buttons still work, so that a press sets
    pressed and a second tap on next fires the confetti again. *)
Lemma handlers_unguarded_counterexample :
  let late e :=
    deliver ["SUN"] (λ _, "0.abc") (λ _, insertion_sort_3) e
      (fst round_just_finished) (snd round_just_finished) in
  gameState initial_state <> playing /\
  currentPlayerIndex (fst (nextPlayer initial_state (world_of []))) = 1 /\
  fst (nextPlayer initial_state (world_of [])) <> initial_state /\
  isPressed (fst (onPointerDown initial_state (world_of []))) = true /\
  isRevealed (fst (handleDragEnd drag_up initial_state (world_of []))) = true /\
  gameState held_until_finished <> playing /\
  effects (snd (nextPlayer held_until_finished (world_of []))) = [Confetti] /\
  gameState (current (fst round_just_finished)) = finished /\
  gameState (current (fst round_just_finished)) <> playing /\
  isPressed (current (fst round_just_finished)) = false /\
  isPressed (current (fst (late PointerDown))) = true /\
  current (fst (late PointerDown)) <> current (fst round_just_finished) /\
  effects (snd round_just_finished) = [Vibrate 50; Confetti] /\
  effects (snd (late ClickNext)) = [Vibrate 50; Confetti; Confetti].
Proof.
intros late. subst late.
split; [discriminate|].
split; [vm_compute; reflexivity|].
split; [vm_compute; discriminate|].
split; [vm_compute; reflexivity|].
split; [vm_compute; reflexivity|].
split; [vm_compute; discriminate|].
split; [vm_compute; reflexivity|].
split; [vm_compute; reflexivity|].
split; [vm_compute; discriminate|].
split; [vm_compute; reflexivity|].
split; [vm_compute; reflexivity|].
split; [vm_compute; discriminate|].
split; [vm_compute; reflexivity|].
vm_compute; reflexivity.
Qed.

(** C8, amended. In every state the component can reach, with the phase
    not Playing: an advance, press, release or drag-end event leaves the
    phase, the pointer, revealed and all the rest of the state but
    pressed as they are; and when no panel is animating out it reaches no
    handler at all and leaves the whole state, pressed included, and the
    world unchanged. *)
Theorem events_outside_playing_ignored
    (WORDS : list string) (toString36 : unit_double -> string)
    (engine_sort : nat -> SortPlan) (ins : list Input) (e : Event) (w : World) :
  let scr := fst (live_session WORDS toString36 engine_sort ins w) in
  let w1 := snd (live_session WORDS toString36 engine_sort ins w) in
  let scr' := fst (deliver WORDS toString36 engine_sort e scr w1) in
  let w' := snd (deliver WORDS toString36 engine_sort e scr w1) in
  gameState (current scr) <> playing ->
  playing_only e ->
  same_but_pressed (current scr) (current scr') /\
  leaving scr' = leaving scr /\
  (leaving scr = None -> scr' = scr /\ w' = w1).
Proof.
intros scr w1 scr' w' Hns He.
pose proof (live_leaving_ok WORDS toString36 engine_sort ins w) as Hok.
fold scr in Hok. subst scr' w'. clearbody scr w1.
destruct scr as [s [c|]]; cbn [current leaving] in *.
- rewrite deliver_leaving.
  destruct (live_rendered (mk_screen s (Some c)) e) eqn:Hr;
    [|cbn [fst snd current leaving]; unfold same_but_pressed; done].
  cbn [fst snd current leaving].
  split; [|split; [reflexivity|discriminate]].
  unfold leaving_ok in Hok. cbn [leaving current] in Hok.
  destruct Hok as [[_ Hs]|(Hc & Hs & Hlast)]; [contradiction|].
  destruct e; cbn in He; try contradiction; cbn [calls]; io_run.
  + unfold same_but_pressed. cbn. done.
  + unfold same_but_pressed. cbn. done.
  + unfold same_but_pressed. cbn. done.
  + destruct (Z.ltb_spec (currentPlayerIndex c) (len (players c) - 1)); [lia|].
    io_run. unfold same_but_pressed. cbn. done.
  + discriminate Hr.
- rewrite deliver_settled. unfold dispatch.
  assert (Hr : rendered s e = false).
  { destruct e; cbn in He; try contradiction; cbn [rendered];
      try reflexivity; apply bool_decide_eq_false_2, Hns. }
  rewrite Hr. cbn [fst snd current leaving].
  rewrite bool_decide_eq_true_2 by reflexivity. rewrite andb_false_r.
  unfold same_but_pressed. done.
Qed.

(** In the round just finished, with the Playing panel still leaving, a
    press changes nothing but pressed. *)
Lemma events_outside_playing_ignored_witness :
  let late :=
    deliver ["SUN"] (λ _, "0.abc") (λ _, insertion_sort_3) PointerDown
      (fst round_just_finished) (snd round_just_finished) in
  gameState (current (fst round_just_finished)) <> playing /\
  playing_only PointerDown /\
  same_but_pressed (current (fst round_just_finished)) (current (fst late)) /\
  leaving (fst late) = leaving (fst round_just_finished) /\
  (leaving (fst round_just_finished) = None ->
   fst late = fst round_just_finished /\ snd late = snd round_just_finished).
Proof.
intros late. subst late. unfold round_just_finished.
assert (Hns : gameState
                (current (fst (live_session ["SUN"] (λ _, "0.abc")
                                 (λ _, insertion_sort_3) last_tap
                                 (world_of [draw_half; draw_max])))) <> playing).
{ vm_compute; discriminate. }
split; [exact Hns|]. split; [exact I|].
exact (events_outside_playing_ignored ["SUN"] (λ _, "0.abc") (λ _, insertion_sort_3)
         last_tap PointerDown (world_of [draw_half; draw_max]) Hns I).
Defined.

(* ===================================================================== *)
(** ** The patient user's rounds                                           *)
(* ===================================================================== *)

Lemma patient_session_ok (WORDS : list string) (toString36 : unit_double -> string)
    (engine_sort : nat -> SortPlan) (es : list Event) (w : World) :
  leaving (fst (live_session WORDS toString36 engine_sort (patient es) w)) = None /\
  session_ok WORDS
    (current (fst (live_session WORDS toString36 engine_sort (patient es) w))).
Proof.
rewrite live_patient. cbn [fst current leaving].
split; [reflexivity|apply session_session_ok].
Qed.

(** X6. For a user who lets every exit animation finish before the next
    event, whatever the events, the draws, the word list and the engine's
    sort: outside Setup the roster has at least three players, the
    pointer is on a seat of the roster, and the stored assignment names
    distinct seats of that roster, at least one and not all of them. *)
Theorem session_round_sound (WORDS : list string) (toString36 : unit_double -> string)
    (engine_sort : nat -> SortPlan) (es : list Event) (w : World) :
  let s := current (fst (live_session WORDS toString36 engine_sort (patient es) w)) in
  gameState s = setup \/
  ((gameState s = playing \/ gameState s = finished) /\
   3 <= len (players s) /\
   0 <= currentPlayerIndex s < len (players s) /\
   exists P : list Z,
     impostorIndices s = Some <$> P /\
     NoDup P /\
     (forall i, i ∈ P -> 0 <= i < len (players s)) /\
     1 <= len P <= len (players s) - 1).
Proof.
intros s.
destruct (patient_session_ok WORDS toString36 engine_sort es w)
  as (_ & Hrev & _ & _ & [Hs|(Hn & Hi & Ha & _)]); fold s in Hrev |- *.
- left. exact Hs.
- fold s in Hn, Hi, Ha.
  destruct (gameState s) eqn:Hg; [left; reflexivity| | |];
    try (right; split; [tauto|]; split; [exact Hn|]; split; [exact Hi|exact Ha]).
Qed.

(** X7. For a user who lets every exit animation finish before the next
    event, the view never reads past the roster: in every state reached,
    the title of the Playing panel, [players[currentPlayerIndex].name], is
    defined whenever the phase is Playing, and outside Setup every entry
    of the impostor list of the Finished panel, [players[idx].name], is
    defined, one entry per stored position. *)
Theorem session_view_defined (WORDS : list string) (toString36 : unit_double -> string)
    (engine_sort : nat -> SortPlan) (es : list Event) (w : World) :
  let s := current (fst (live_session WORDS toString36 engine_sort (patient es) w)) in
  (gameState s = playing -> is_Some (turn_name s)) /\
  (gameState s <> setup ->
   Forall is_Some (impostor_names s) /\
   length (impostor_names s) = length (impostorIndices s) /\
   (1 <= length (impostor_names s))%nat).
Proof.
intros s.
destruct (patient_session_ok WORDS toString36 engine_sort es w)
  as (_ & _ & _ & _ & Hd); fold s in Hd.
split.
- intros Hp. destruct Hd as [Hs|(Hn & Hi & _)]; [congruence|].
  unfold turn_name. destruct (index_defined (players s) _ Hi) as [p Hp'].
  rewrite Hp'. cbn. eauto.
- intros Hns. destruct Hd as [Hs|(Hn & _ & (P & HP & _ & Hin & Hlen) & _)]; [contradiction|].
  unfold impostor_names. rewrite HP.
  split; [|split].
  + apply Forall_fmap, Forall_fmap, Forall_forall. intros i Hi. cbn.
    destruct (index_defined (players s) i (Hin i Hi)) as [p Hp']. rewrite Hp'.
    cbn. eauto.
  + rewrite !length_fmap. reflexivity.
  + rewrite !length_fmap. unfold len in Hlen. lia.
Qed.

(** X10. For a user who lets every exit animation finish before the next
    event, in every state reached outside Setup the seats of the roster
    split in two: the seats whose card reads "Eres el Impostor", as many
    as positions are stored, at least one and not all, and the seats whose
    card shows the stored word, all the others and at least one.  In
    classic mode exactly one seat is the impostor's and the Finished
    panel's heading is the singular one. *)
Theorem session_seats (WORDS : list string) (toString36 : unit_double -> string)
    (engine_sort : nat -> SortPlan) (es : list Event) (w : World) :
  let s := current (fst (live_session WORDS toString36 engine_sort (patient es) w)) in
  let n := len (players s) in
  let impostor_seats := filter (λ i, card_of_seat s i = ImpostorCard) (seqZ 0 n) in
  let word_seats := filter (λ i, card_of_seat s i = WordCard (currentWord s)) (seqZ 0 n) in
  gameState s = setup \/
  (len impostor_seats = len (impostorIndices s) /\
   1 <= len impostor_seats <= n - 1 /\
   len word_seats = n - len impostor_seats /\
   1 <= len word_seats /\
   (gameMode s = classic ->
    len impostor_seats = 1 /\ finished_heading s = "El impostor era...")).
Proof.
intros s n impostor_seats word_seats.
destruct (patient_session_ok WORDS toString36 engine_sort es w)
  as (_ & _ & _ & _ & [Hs|(_ & _ & Ha & Hc & _)]); [left; exact Hs|].
fold s in Ha, Hc. right.
destruct (seats_of_assignment s Ha) as (H1 & H2 & H3).
fold n impostor_seats word_seats in H1, H2, H3.
split; [exact H1|]. split; [exact H2|]. split; [exact H3|]. split; [lia|].
intros Hm. specialize (Hc Hm). split; [congruence|].
unfold finished_heading. rewrite Hc. reflexivity.
Qed.

(** X13. For a user who lets every exit animation finish before the next
    event, the round badge and the confetti keep step: the confetti has
    been fired at least as often as the badge accounts for completed
    rounds, and in a session that never returns to the start exactly as
    often: [round - 1] times while a round is being set up or played,
    [round] times once it is Finished.  A return to the start keeps the
    counter, so the next round played reuses its number. *)
Theorem round_counts_celebrations (WORDS : list string)
    (toString36 : unit_double -> string) (engine_sort : nat -> SortPlan)
    (es : list Event) (w : World) :
  let s' := current (fst (live_session WORDS toString36 engine_sort (patient es) w)) in
  let w' := snd (live_session WORDS toString36 engine_sort (patient es) w) in
  let fired := Z.of_nat (count_confetti (effects w'))
               - Z.of_nat (count_confetti (effects w)) in
  rounds_completed s' <= fired /\
  (ClickBackToStart ∉ es -> fired = rounds_completed s').
Proof.
intros s' w' fired. subst s' w' fired. rewrite live_patient.
cbn [fst snd current]. unfold session.
destruct (dispatch_all_progress WORDS toString36 engine_sort es initial_state w
            (Z.of_nat (count_confetti (effects w)))) as [Hle Heq].
split.
- apply Hle. change (rounds_completed initial_state) with 0. lia.
- intros Hnot. symmetry. apply (Heq Hnot).
  change (rounds_completed initial_state) with 0. lia.
Qed.

(* ===================================================================== *)
(** ** What an event can change                                            *)
(* ===================================================================== *)

(** X11. While the Setup panel is not on screen, neither as the panel of
    the phase nor animating out, the roster is frozen: no event but the
    return to the start changes the players, and no event but the start
    of a new round changes the assignment or the word. *)
Theorem round_frozen (WORDS : list string) (toString36 : unit_double -> string)
    (engine_sort : nat -> SortPlan) (e : Event) (scr : Screen) (w : World) :
  gameState (on_screen scr) <> setup ->
  let s := current scr in
  let s' := current (fst (deliver WORDS toString36 engine_sort e scr w)) in
  (e <> ClickBackToStart -> players s' = players s) /\
  (e <> ClickNewRound ->
   impostorIndices s' = impostorIndices s /\ currentWord s' = currentWord s).
Proof.
intros Hns s s'. subst s s'. unfold deliver.
destruct (live_rendered scr e) eqn:Hr; [|done].
rewrite fst_bind. cbn [fst current].
set (c := on_screen scr) in *. set (s := current scr).
assert (Hph : e = CloseRules \/ rendered c e = true).
{ destruct e; cbn [live_rendered] in Hr; fold c in Hr; tauto. }
destruct Hph as [->|Hrc]; [cbn [calls]; io_run; done|].
pose proof (rendered_setup c e Hrc) as Hph.
destruct e; try contradiction; cbn [calls]; io_run; try done.
- destruct (_ <? _); io_run; done.
- split; [intros _|done].
  rewrite apply_updates_app.
  destruct (decide (gameState c = finished)); reflexivity.
Qed.

Lemma round_frozen_witness :
  let scr := mk_screen held_until_finished None in
  gameState (on_screen scr) <> setup /\
  players (current (fst (deliver ["SUN"] (λ _, "0.i") (λ _, insertion_sort_3)
                           (ClickRemove "1") scr (world_of []))))
  = players (current scr).
Proof.
intros scr.
assert (Hns : gameState (on_screen scr) <> setup) by (vm_compute; discriminate).
split; [exact Hns|].
apply (round_frozen ["SUN"] (λ _, "0.i") (λ _, insertion_sort_3)
         (ClickRemove "1") scr (world_of []) Hns).
discriminate.
Defined.

(* ===================================================================== *)
(** ** What holds for the hasty user too                                   *)
(* ===================================================================== *)

Section LiveSafety.

Variable WORDS : list string.
Variable toString36 : unit_double -> string.
Variable engine_sort : nat -> SortPlan.

Lemma word_of_any_draw (u : unit_double) :
  WORDS <> [] ->
  exists word : string,
    index WORDS (floor_mul u (len WORDS)) = Some word /\ word ∈ WORDS.
Proof.
intros Hne. apply index_in_range, floor_mul_range.
unfold len. destruct WORDS; [done|]. simpl. lia.
Qed.

(** A handler of any render, run on any safe state, leaves it safe,
    provided a Playing panel is not run on a state in Setup. *)
Lemma calls_state_safe (e : Event) (c s : AppState) (w : World) :
  e = CloseRules \/ rendered c e = true ->
  (gameState c = playing -> gameState s <> setup) ->
  state_safe WORDS s ->
  state_safe WORDS (apply_updates (fst (calls WORDS toString36 engine_sort e c w)) s).
Proof.
intros Hr Hcs (H1 & H2 & H3 & H4).
destruct Hr as [->|Hr]; [cbn [calls]; io_run; unfold state_safe; cbn; done|].
pose proof (rendered_setup c e Hr) as Hph.
destruct e; try contradiction; cbn [calls]; io_run;
  try (unfold state_safe; cbn; done).
- (* ClickRemove *)
  destruct (3 <? len (players c)); unfold state_safe; cbn; done.
- (* ClickAdd *)
  destruct (truthy _); io_run; unfold state_safe; cbn; done.
- (* ClickStart *)
  rewrite apply_updates_app. unfold state_safe, word_ok.
  destruct (decide (gameState c = finished)); cbn;
    (split; [discriminate|]; split; [reflexivity|]; split; [lia|]);
    intros Hne _; apply word_of_any_draw, Hne.
- (* ClickNext *)
  destruct (_ <? _); io_run; unfold state_safe, word_ok; cbn; [done|].
  split; [discriminate|]. split; [exact H2|]. split; [exact H3|].
  intros Hne _. apply (H4 Hne), Hcs, Hph.
- (* ClickNewRound *)
  rewrite apply_updates_app. unfold state_safe, word_ok.
  destruct (decide (gameState c = finished)); cbn;
    (split; [discriminate|]; split; [reflexivity|]; split; [lia|]);
    intros Hne _; apply word_of_any_draw, Hne.
Qed.

Lemma deliver_state_safe (e : Event) (scr : Screen) (w : World) :
  leaving_ok scr ->
  state_safe WORDS (current scr) ->
  state_safe WORDS (current (fst (deliver WORDS toString36 engine_sort e scr w))).
Proof.
intros Hok Hs. unfold deliver.
destruct (live_rendered scr e) eqn:Hr; [|exact Hs].
rewrite fst_bind. cbn [fst current].
apply calls_state_safe; [| |exact Hs].
- destruct e; cbn [live_rendered] in Hr; tauto.
- destruct scr as [s [c|]].
  + change (on_screen (mk_screen s (Some c))) with c. cbn [current].
    unfold leaving_ok in Hok. cbn [leaving current] in Hok.
    destruct Hok as [[Hc _]|(_ & Hf & _)]; congruence.
  + change (on_screen (mk_screen s None)) with s. cbn [current]. congruence.
Qed.

Lemma run_state_safe (ins : list Input) :
  forall (scr : Screen) (w : World),
    leaving_ok scr ->
    state_safe WORDS (current scr) ->
    state_safe WORDS (current (fst (run WORDS toString36 engine_sort ins scr w))).
Proof.
induction ins as [|i ins IH]; intros scr w Hok Hs; [exact Hs|].
cbn [run]. rewrite fst_bind. destruct i as [e|]; cbn [step].
- apply IH; [apply deliver_leaving_ok, Hok|apply deliver_state_safe; assumption].
- apply IH; [exact I|exact Hs].
Qed.

End LiveSafety.

(** X18. What holds whatever the user does, taps that land on a panel
    animating out included.  In every state reached the phase is never
    ['reveal'], revealed is false and the round counter is at least 1;
    with a word list that is not empty the word is one of the list
    whenever the phase is not Setup; and a panel is animating out only
    as the Setup panel over a round that has started or as the Playing
    panel, frozen on the last seat, over a round that is finished. *)
Theorem live_session_safe (WORDS : list string) (toString36 : unit_double -> string)
    (engine_sort : nat -> SortPlan) (ins : list Input) (w : World) :
  let scr := fst (live_session WORDS toString36 engine_sort ins w) in
  let s := current scr in
  gameState s <> reveal /\
  isRevealed s = false /\
  1 <= round s /\
  (WORDS <> [] -> gameState s <> setup ->
   exists word : string, currentWord s = Some word /\ word ∈ WORDS) /\
  (forall c : AppState,
     leaving scr = Some c ->
     (gameState c = setup /\ gameState s = playing) \/
     (gameState c = playing /\ gameState s = finished /\
      len (players c) - 1 <= currentPlayerIndex c)).
Proof.
intros scr s.
assert (Hs : state_safe WORDS s).
{ apply run_state_safe; [exact I|].
  unfold state_safe. cbn. split; [discriminate|]. split; [reflexivity|].
  split; [lia|]. intros _ Hns. contradiction. }
destruct Hs as (H1 & H2 & H3 & H4).
split; [exact H1|]. split; [exact H2|]. split; [exact H3|].
split; [exact H4|].
intros c Hc.
pose proof (live_leaving_ok WORDS toString36 engine_sort ins w) as Hok.
fold scr in Hok. unfold leaving_ok in Hok. rewrite Hc in Hok. exact Hok.
Qed.
